(** * ContactsControl: the searchable, sortable, paginated contacts table

    A shallow embedding of [ContactsControl/index.ts] (a PowerApps component
    framework control) and the properties of its view logic: the search
    filter, the column sort, the pagination and the match highlighting.

    Conventions of the embedding.
    - A JavaScript string is a list of code units.  The development covers
      the code units 0..255 (ISO 8859-1), carried by [ascii]; on that range
      [toLowerCase], [trim] and the case folding of regular expressions are
      the ECMAScript ones.
    - A JavaScript number that holds a page number, a length or an index is
      an integer of [Z].
    - The private fields of the class form the record [Control]; a method
      that assigns fields returns the new record.
    - [String.prototype.localeCompare] depends on the host locale: it is a
      member of the class [Collator]. *)

From Stdlib Require Import List ZArith Lia Bool Ascii Permutation Sorted.
From Stdlib Require String.
Import ListNotations String.StringSyntax.

Local Open Scope string_scope.
Local Open Scope list_scope.
Local Open Scope Z_scope.

(** ** ECMAScript built-ins used by the control *)

Module JS.

(** A string value: a sequence of code units. *)
Definition str : Type := list ascii.

(** A string literal of the source. *)
Definition lit (s : String.string) : str := String.list_ascii_of_string s.

Definition code (c : ascii) : N := N_of_ascii c.

Definition str_eqb (a b : str) : bool :=
  if list_eq_dec ascii_dec a b then true else false.

(** [ToBoolean] on a string: only the empty string is falsy. *)
Definition truthy (s : str) : bool :=
  match s with [] => false | _ :: _ => true end.

(** [x || ""] where [x] is a string or null/undefined. *)
Definition orEmpty (x : option str) : str :=
  match x with Some s => s | None => [] end.

(** *** String.prototype.toLowerCase

    On 0..255 the lower-case mapping moves A..Z and the capital letters
    U+00C0..U+00DE (the multiplication sign U+00D7 apart) up by 32 and
    fixes every other code unit.  Outside that range, which this type does
    not carry, String.prototype.toLowerCase is no map of code units (a
    final sigma depends on what surrounds it, U+0130 becomes two units):
    what is proved of the filter for every string uses only that the empty
    string, and no other, has an empty lower-case form. *)
Definition lowerChar (c : ascii) : ascii :=
  let n := code c in
  if (((65 <=? n) && (n <=? 90)) ||
      ((192 <=? n) && (n <=? 222) && negb (n =? 215)))%N
  then ascii_of_N (n + 32) else c.

Definition toLowerCase (s : str) : str := map lowerChar s.

(** *** String.prototype.trim

    WhiteSpace and LineTerminator code units below 256: TAB, LF, VT, FF, CR,
    SP and NBSP. *)
Definition isWhiteSpace (c : ascii) : bool :=
  let n := code c in
  (((9 <=? n) && (n <=? 13)) || (n =? 32) || (n =? 160))%N.

Fixpoint trimStart (s : str) : str :=
  match s with
  | [] => []
  | c :: t => if isWhiteSpace c then trimStart t else s
  end.

Definition trimEnd (s : str) : str := rev (trimStart (rev s)).

Definition trim (s : str) : str := trimEnd (trimStart s).

(** *** String.prototype.includes *)
Fixpoint startsWith (s sub : str) {struct sub} : bool :=
  match sub, s with
  | [], _ => true
  | _ :: _, [] => false
  | a :: sub', b :: s' => if ascii_dec a b then startsWith s' sub' else false
  end.

Fixpoint includes (s sub : str) : bool :=
  startsWith s sub ||
  match s with
  | [] => false
  | _ :: t => includes t sub
  end.

(** *** Array.prototype.slice

    A negative bound counts from the end; both bounds are clamped to the
    array. *)
Definition relativeIndex (len i : Z) : Z :=
  if i <? 0 then Z.max (len + i) 0 else Z.min i len.

Definition slice {A : Type} (l : list A) (start stop : Z) : list A :=
  let len := Z.of_nat (length l) in
  let k := relativeIndex len start in
  let final := relativeIndex len stop in
  firstn (Z.to_nat (final - k)) (skipn (Z.to_nat k) l).

(** *** Math.ceil (n / d) for a length [n] and a positive integer [d] *)
Definition ceilDiv (n d : Z) : Z := (n + d - 1) / d.

(** *** Math.min (a, b) || 1 : zero is the only falsy integer *)
Definition orOne (n : Z) : Z := if n =? 0 then 1 else n.

(** *** Array.prototype.sort with a comparison function

    The sort is stable (ECMAScript 2019): for a consistent comparison
    function the result is the one of a stable insertion sort.  An element
    is put in front of the first element it does not come after. *)
Section Sort.
Context {A : Type} (cmp : A -> A -> Z).

Fixpoint insert (x : A) (l : list A) : list A :=
  match l with
  | [] => [x]
  | y :: l' => if cmp x y <=? 0 then x :: l else y :: insert x l'
  end.

Fixpoint sort (l : list A) : list A :=
  match l with
  | [] => []
  | x :: l' => insert x (sort l')
  end.

End Sort.

(** *** Completions

    A call either returns normally or throws; [new RegExp] throws a
    SyntaxError on an ill-formed pattern.  [Unmodelled] marks a pattern that
    uses syntax outside the fragment of the pattern language embedded below:
    nothing is claimed about such a call. *)
Inductive Completion (A : Type) : Type :=
| Normal (a : A)
| ThrowSyntaxError
| Unmodelled.
Arguments Normal {A} a.
Arguments ThrowSyntaxError {A}.
Arguments Unmodelled {A}.

Definition bind {A B : Type} (c : Completion A) (k : A -> Completion B)
  : Completion B :=
  match c with
  | Normal a => k a
  | ThrowSyntaxError => ThrowSyntaxError
  | Unmodelled => Unmodelled
  end.

(** [xs.forEach (x => ... )] collecting what each call produces; the first
    abrupt completion ends the loop. *)
Fixpoint forEach {A B : Type} (f : A -> Completion B) (xs : list A)
  : Completion (list B) :=
  match xs with
  | [] => Normal []
  | x :: xs' =>
      bind (f x) (fun y => bind (forEach f xs') (fun ys => Normal (y :: ys)))
  end.

End JS.

Import JS.

(** ** Regular expressions: [new RegExp (pattern, "gi")]

    The fragment of the pattern language that is embedded: pattern
    characters, [.], an escaped syntax character, capturing groups,
    alternation and the quantifiers [*], [+], [?] (greedy, or lazy with a
    trailing [?]).  A pattern that uses anything else (assertions, classes,
    braces, other escapes, [(?] groups) is [Unmodelled].  Inside the
    fragment the parser reports the early errors of ECMAScript and the
    matcher is the backtracking matcher of ECMAScript, with the [i] flag. *)

Module RegExp.

Inductive QuantKind : Type := Star | Plus | Opt.

Inductive Node : Type :=
| Empty
| Char (c : ascii)
| Dot
| Seq (a b : Node)
| Alt (a b : Node)
| Group (index : nat) (body : Node)
| Quant (body : Node) (kind : QuantKind) (greedy : bool).

(** *** Parsing a pattern *)

(** What the last term of the alternative being read is: needed to tell
    whether a quantifier has something to repeat. *)
Inductive Last : Type := NoTerm | Atom | Quantified | LazyQuantified.

(** A disjunction being read: the finished alternatives and the terms of the
    current one, latest first, and the index of the group it is the body of
    (0 for the whole pattern). *)
Record Frame : Type := mkFrame {
  alts : list Node;
  terms : list Node;
  last : Last;
  index : nat
}.

Definition newFrame (i : nat) : Frame := mkFrame [] [] NoTerm i.

Definition seqOf (ts : list Node) : Node :=
  fold_left (fun acc t => Seq t acc) ts Empty.

Definition altOf (f : Frame) : Node :=
  fold_left (fun acc a => Alt a acc) (alts f) (seqOf (terms f)).

Definition pushAtom (f : Frame) (a : Node) : Frame :=
  mkFrame (alts f) (a :: terms f) Atom (index f).

Definition nextAlternative (f : Frame) : Frame :=
  mkFrame (seqOf (terms f) :: alts f) [] NoTerm (index f).

(** A quantifier applies to the last term; [None] when there is nothing to
    repeat.  A [?] after a greedy quantifier makes it lazy. *)
Definition quantify (k : QuantKind) (f : Frame) : option Frame :=
  match last f, terms f with
  | Atom, a :: ts => Some (mkFrame (alts f) (Quant a k true :: ts) Quantified (index f))
  | Quantified, Quant a k' _ :: ts =>
      match k with
      | Opt => Some (mkFrame (alts f) (Quant a k' false :: ts) LazyQuantified (index f))
      | _ => None
      end
  | _, _ => None
  end.

Definition isChar (c : ascii) (s : String.string) : bool :=
  existsb (Ascii.eqb c) (lit s).

(** SyntaxCharacter, and the solidus, which an identity escape also takes. *)
Definition isSyntaxCharacter (c : ascii) : bool := isChar c "^$\.*+?()[]{}|".

Inductive Parse : Type :=
| Parsed (r : Node)
| SyntaxError
| Unsupported.

(** One pass over the pattern with the stack of the enclosing disjunctions.
    [next] is the index the next capturing group gets. *)
Fixpoint parseLoop (s : str) (next : nat) (top : Frame) (stack : list Frame)
  : Parse :=
  match s with
  | [] =>
      match stack with
      | [] => Parsed (altOf top)
      | _ :: _ => SyntaxError                        (* unterminated group *)
      end
  | c :: rest =>
      if isChar c "(" then
        match rest with
        | q :: _ =>
            if isChar q "?" then Unsupported
            else parseLoop rest (S next) (newFrame next) (top :: stack)
        | [] => parseLoop rest (S next) (newFrame next) (top :: stack)
        end
      else if isChar c ")" then
        match stack with
        | [] => SyntaxError                          (* unmatched ')' *)
        | parent :: stack' =>
            parseLoop rest next
              (pushAtom parent (Group (index top) (altOf top))) stack'
        end
      else if isChar c "|" then parseLoop rest next (nextAlternative top) stack
      else if isChar c "*+?" then
        let k := if isChar c "*" then Star
                 else if isChar c "+" then Plus else Opt in
        match quantify k top with
        | Some top' => parseLoop rest next top' stack
        | None => SyntaxError                        (* nothing to repeat *)
        end
      else if isChar c "\" then
        match rest with
        | [] => SyntaxError                          (* \ at end of pattern *)
        | e :: rest' =>
            if isSyntaxCharacter e || isChar e "/"
            then parseLoop rest' next (pushAtom top (Char e)) stack
            else Unsupported
        end
      else if isChar c "." then parseLoop rest next (pushAtom top Dot) stack
      else if isChar c "^$[]{}" then Unsupported
      else parseLoop rest next (pushAtom top (Char c)) stack
  end.

Definition parse (pattern : str) : Parse :=
  parseLoop pattern 1%nat (newFrame 0) [].

(** *** Matching

    [Canonicalize] of the [i] flag: the code unit of the upper-case form
    when that form is a single code unit.  U+00FF and U+00B5 go to U+0178
    and U+039C; U+00DF, whose upper-case form has two letters, stays. *)
Definition Canonicalize (c : ascii) : N :=
  let n := code c in
  if (((97 <=? n) && (n <=? 122)) ||
      ((224 <=? n) && (n <=? 254) && negb (n =? 247)))%N
  then (n - 32)%N
  else if (n =? 255)%N then 376%N
  else if (n =? 181)%N then 924%N
  else n.

Definition isLineTerminator (c : ascii) : bool :=
  ((code c =? 10) || (code c =? 13))%N.

(** A match state: the input not yet consumed and the capture of group 1
    (the only one the control refers to), undefined at first. *)
Definition MatchState : Type := (str * option str)%type.

Definition consumed (from to : str) : str :=
  firstn (length from - length to) from.

Fixpoint hasGroup1 (r : Node) : bool :=
  match r with
  | Empty | Char _ | Dot => false
  | Seq a b | Alt a b => hasGroup1 a || hasGroup1 b
  | Group i body => (i =? 1)%nat || hasGroup1 body
  | Quant body _ _ => hasGroup1 body
  end.

Definition shorter (x y : MatchState) : bool :=
  (length (fst y) <? length (fst x))%nat.

(** RepeatMatcher with min = 0 and max = infinity.  [iter] runs the
    quantified atom once; an iteration that consumes nothing is rejected.
    Each iteration kept shortens the input, so [fuel] = its length is never
    short. *)
Fixpoint repeat (iter : MatchState -> list MatchState) (greedy : bool)
  (fuel : nat) (x : MatchState) : list MatchState :=
  let more :=
    match fuel with
    | O => []
    | S fuel' =>
        flat_map (repeat iter greedy fuel') (filter (shorter x) (iter x))
    end in
  if greedy then more ++ [x] else x :: more.

(** The states in which the matcher can leave the node, in the order the
    backtracking matcher tries them: the first is the one it returns. *)
Fixpoint run (r : Node) (x : MatchState) : list MatchState :=
  match r with
  | Empty => [x]
  | Char c =>
      match fst x with
      | d :: t => if (Canonicalize c =? Canonicalize d)%N then [(t, snd x)] else []
      | [] => []
      end
  | Dot =>
      match fst x with
      | d :: t => if isLineTerminator d then [] else [(t, snd x)]
      | [] => []
      end
  | Seq a b => flat_map (run b) (run a x)
  | Alt a b => run a x ++ run b x
  | Group i body =>
      map (fun y => if (i =? 1)%nat
                    then (fst y, Some (consumed (fst x) (fst y))) else y)
          (run body x)
  | Quant body kind greedy =>
      (* the captures of the groups inside the atom are reset at each
         iteration *)
      let iter := fun y : MatchState =>
        run body (fst y, if hasGroup1 body then None else snd y) in
      match kind with
      | Star => repeat iter greedy (length (fst x)) x
      | Plus => flat_map (repeat iter greedy (length (fst x))) (iter x)
      | Opt =>
          let once := filter (shorter x) (iter x) in
          if greedy then once ++ [x] else x :: once
      end
  end.

(** A match attempt at the start of [s]: the length of the match and the
    capture of group 1. *)
Definition matchAt (r : Node) (s : str) : option (nat * option str) :=
  match run r (s, None) with
  | [] => None
  | (rest, cap) :: _ => Some ((length s - length rest)%nat, cap)
  end.

(** *** String.prototype.replace with a global regular expression

    The replacement string of the control, as GetSubstitution reads it:
    text, the reference [$1], text. *)
Record Template : Type := mkTemplate { before : str; after : str }.

Definition substitution (r : Node) (t : Template) (cap : option str) : str :=
  before t ++ (if hasGroup1 r then orEmpty cap else lit "$1") ++ after t.

(** The scan from left to right.  [skip] counts the code units of the
    current match still to step over; after an empty match the scan moves
    one code unit on, which is copied. *)
Fixpoint replaceLoop (r : Node) (t : Template) (skip : nat) (s : str) : str :=
  match skip with
  | S k =>
      match s with
      | [] => []
      | _ :: s' => replaceLoop r t k s'
      end
  | O =>
      match matchAt r s with
      | Some (n, cap) =>
          substitution r t cap ++
          match s with
          | [] => []
          | c :: s' =>
              match n with
              | O => c :: replaceLoop r t O s'
              | S k => replaceLoop r t k s'
              end
          end
      | None =>
          match s with
          | [] => []
          | c :: s' => c :: replaceLoop r t O s'
          end
      end
  end.

Definition replace (r : Node) (t : Template) (value : str) : str :=
  replaceLoop r t O value.

End RegExp.

(** ** The data set the framework hands to the control

    [context.parameters.sampleDataSet]: the columns of the view, the record
    ids in the order of the view, and [records[id].getFormattedValue(name)],
    which is null when the record has no value under that name.  Every id of
    [sortedRecordIds] is a key of [records]. *)

Definition RecordId : Type := str.

Record Column : Type := mkColumn {
  name : str;
  displayName : str
}.

Record DataSet : Type := mkDataSet {
  columns : list Column;
  sortedRecordIds : list RecordId;
  getFormattedValue : RecordId -> str -> option str
}.

(** [a.localeCompare(b)]: negative, zero or positive. *)
Class Collator : Type := { localeCompare : str -> str -> Z }.

(** ECMAScript requires [localeCompare] to be a consistent comparison
    function: a total preorder on strings. *)
Class ConsistentCollator (C : Collator) : Prop := {
  compare_antisym : forall a b, Z.sgn (localeCompare a b) = - Z.sgn (localeCompare b a);
  compare_trans : forall a b c,
    localeCompare a b <= 0 -> localeCompare b c <= 0 -> localeCompare a c <= 0
}.

(** ** The control: its fields *)

Record Control : Type := mkControl {
  searchInput : str;                 (* this.searchInput.value *)
  currentSortColumn : option str;    (* undefined until a header is clicked *)
  isAscending : bool;
  currentPage : Z
}.

Definition recordsPerPage : Z := 13.

(** The fields after the constructor and [init]. *)
Definition initial : Control := mkControl [] None true 1.

(** The mark next to a header: the empty string, the upward triangle
    U+25B2 or the downward triangle U+25BC. *)
Inductive SortIndicator : Type := NoMark | UpMark | DownMark.

(** [this.currentSortColumn === columnName] *)
Definition isSortColumn (this : Control) (columnName : str) : bool :=
  match currentSortColumn this with
  | Some c => str_eqb c columnName
  | None => false
  end.

Definition getSortIndicator (this : Control) (columnName : str) : SortIndicator :=
  if negb (isSortColumn this columnName) then NoMark
  else if isAscending this then UpMark else DownMark.

(** ** highlightText *)

Definition dquote : ascii := ascii_of_N 34.

Definition highlightSpan : RegExp.Template :=
  RegExp.mkTemplate
    (lit "<span class=" ++ [dquote] ++ lit "highlight" ++ [dquote] ++ lit ">")
    (lit "</span>").

Definition highlightText (value searchQuery : str) : Completion str :=
  if negb (truthy searchQuery) then Normal value
  else
    match RegExp.parse (lit "(" ++ searchQuery ++ lit ")") with
    | RegExp.Parsed regex => Normal (RegExp.replace regex highlightSpan value)
    | RegExp.SyntaxError => ThrowSyntaxError
    | RegExp.Unsupported => Unmodelled
    end.

(** ** renderTable *)

Section Render.
Context {collator : Collator}.
Variable ds : DataSet.
Variable this : Control.

Definition searchQuery : str := toLowerCase (trim (searchInput this)).

Definition headerCells : list (str * SortIndicator) :=
  map (fun column => (displayName column, getSortIndicator this (name column)))
      (columns ds).

(** The comparison function handed to [sort]. *)
Definition compareRecords (column : str) (a b : RecordId) : Z :=
  let recordA := orEmpty (getFormattedValue ds a column) in
  let recordB := orEmpty (getFormattedValue ds b column) in
  if isAscending this then localeCompare recordA recordB
  else localeCompare recordB recordA.

Definition sortedRecords : list RecordId :=
  match currentSortColumn this with
  | Some column =>
      if truthy column then sort (compareRecords column) (sortedRecordIds ds)
      else sortedRecordIds ds
  | None => sortedRecordIds ds
  end.

Definition matchesFullName (recordId : RecordId) : bool :=
  let fullNameValue :=
    orEmpty (option_map toLowerCase (getFormattedValue ds recordId (lit "fullname"))) in
  includes fullNameValue searchQuery.

Definition matchesOtherFields (recordId : RecordId) : bool :=
  existsb (fun column =>
             match getFormattedValue ds recordId (name column) with
             | Some v => includes (toLowerCase v) searchQuery
             | None => false
             end)
          (columns ds).

Definition filteredRecords : list RecordId :=
  filter (fun recordId => matchesFullName recordId || matchesOtherFields recordId)
         sortedRecords.

Definition totalRecords : Z := Z.of_nat (length filteredRecords).

Definition totalPages : Z := ceilDiv totalRecords recordsPerPage.

(** The value assigned to [this.currentPage]. *)
Definition clampedPage : Z := orOne (Z.min (currentPage this) totalPages).

Definition startIndex : Z := (clampedPage - 1) * recordsPerPage.

Definition paginatedRecords : list RecordId :=
  slice filteredRecords startIndex (startIndex + recordsPerPage).

(** The cells of the body: a row for each record of the page, a cell for
    each column. *)
Definition tableCells : Completion (list (list str)) :=
  forEach (fun recordId =>
             forEach (fun column =>
                        let value := orEmpty (getFormattedValue ds recordId (name column)) in
                        highlightText value searchQuery)
                     (columns ds))
          paginatedRecords.

End Render.

(** What one call of [renderTable] shows: the header marks, the rows of the
    page, the page count given to the page buttons, and the cells. *)
Record Rendered : Type := mkRendered {
  shownHeaders : list (str * SortIndicator);
  shownRows : list RecordId;
  shownTotalPages : Z;
  shownCells : Completion (list (list str))
}.

Definition renderTable {collator : Collator} (ds : DataSet) (this : Control)
  : Control * Rendered :=
  (mkControl (searchInput this) (currentSortColumn this) (isAscending this)
             (clampedPage ds this),
   mkRendered (headerCells ds this) (paginatedRecords ds this)
              (totalPages ds this) (tableCells ds this)).

Definition updateView {collator : Collator} (ds : DataSet) (this : Control)
  : Control * Rendered :=
  renderTable ds this.

(** ** The event handlers *)

(** [sortTable]: the assignments, then [updateView]. *)
Definition sortTableFields (this : Control) (columnName : str) : Control :=
  if isSortColumn this columnName
  then mkControl (searchInput this) (currentSortColumn this)
                 (negb (isAscending this)) (currentPage this)
  else mkControl (searchInput this) (Some columnName) true (currentPage this).

Definition sortTable {collator : Collator} (ds : DataSet) (this : Control)
  (columnName : str) : Control * Rendered :=
  updateView ds (sortTableFields this columnName).

(** What the user and the framework can do.  [shown] is the page count of
    the last rendering, which the listeners of the page buttons hold. *)
Inductive Event : Type :=
| Typed (text : str)            (* "input" on the search box *)
| HeaderClicked (columnName : str)
| PreviousClicked
| NextClicked
| PageClicked (i : Z)
| Updated.                      (* the framework calls updateView *)

Definition setPage (this : Control) (p : Z) : Control :=
  mkControl (searchInput this) (currentSortColumn this) (isAscending this) p.

Definition setSearch (this : Control) (text : str) : Control :=
  mkControl text (currentSortColumn this) (isAscending this) (currentPage this).

(** The control after an event, and the page count it shows.  A listener
    that does nothing leaves both as they are; a page button exists only for
    1..[shown].  An event is taken whether or not the last rendering ran to
    its end, so the states reached here include every state of the control. *)
Definition handle {collator : Collator} (ds : DataSet) (w : Control * Z)
  (e : Event) : Control * Z :=
  let (this, shown) := w in
  let rendered (r : Control * Rendered) := (fst r, shownTotalPages (snd r)) in
  match e with
  | Typed text => rendered (updateView ds (setPage (setSearch this text) 1))
  | HeaderClicked columnName => rendered (sortTable ds this columnName)
  | PreviousClicked =>
      if 1 <? currentPage this
      then rendered (updateView ds (setPage this (currentPage this - 1)))
      else w
  | NextClicked =>
      if currentPage this <? shown
      then rendered (updateView ds (setPage this (currentPage this + 1)))
      else w
  | PageClicked i =>
      if (1 <=? i) && (i <=? shown)
      then rendered (updateView ds (setPage this i))
      else w
  | Updated => rendered (updateView ds this)
  end.

(** The states the control can be in: the events arrive one at a time, each
    with the data set the framework presents then.  [allowed] limits the
    events considered. *)
Inductive reachableBy {collator : Collator} (allowed : Event -> bool)
  : Control * Z -> Prop :=
| reachable_init : reachableBy allowed (initial, 0)
| reachable_step : forall w ds e,
    reachableBy allowed w -> allowed e = true ->
    reachableBy allowed (handle ds w e).

Definition reachable {collator : Collator} : Control * Z -> Prop :=
  reachableBy (fun _ => true).

Definition notHeaderClick (e : Event) : bool :=
  match e with HeaderClicked _ => false | _ => true end.

(** ** Notions of the specification *)

(** [v] contains [q] as a case-insensitive substring: some substring of [v]
    equals [q] up to the case of the letters. *)
Definition containsCI (v q : str) : Prop :=
  exists pre mid post, v = pre ++ mid ++ post /\ toLowerCase mid = toLowerCase q.

(** The formatted value with an absent value read as the empty string. *)
Definition valueOf (ds : DataSet) (recordId : RecordId) (column : str) : str :=
  orEmpty (getFormattedValue ds recordId column).

(** The filter as the specification words it for a query [q]: the primary
    column or some declared column contains [q]. *)
Definition specMatch (ds : DataSet) (q : str) (recordId : RecordId) : Prop :=
  containsCI (valueOf ds recordId (lit "fullname")) q \/
  exists column, In column (columns ds) /\
                 containsCI (valueOf ds recordId (name column)) q.

(** The filter with the branch over the declared columns alone. *)
Definition filteredByColumnsOnly {collator : Collator} (ds : DataSet)
  (this : Control) : list RecordId :=
  filter (matchesOtherFields ds this) (sortedRecords ds this).

(** The nearest page to [p] among 1..max([pages], 1). *)
Definition nearestPage (pages p : Z) : Z := Z.max 1 (Z.min p (Z.max pages 1)).

(** A collation to run examples with: code unit order. *)
Fixpoint codeUnitCompare (a b : str) : Z :=
  match a, b with
  | [], [] => 0
  | [], _ :: _ => -1
  | _ :: _, [] => 1
  | x :: a', y :: b' =>
      if (code x <? code y)%N then -1
      else if (code y <? code x)%N then 1
      else codeUnitCompare a' b'
  end.

Definition codeUnitCollator : Collator := {| localeCompare := codeUnitCompare |}.

(** A query without pattern syntax, and the node its characters parse to. *)
Definition isPlain (q : str) : bool :=
  forallb (fun c => negb (RegExp.isSyntaxCharacter c)) q.

Definition literal (q : str) : RegExp.Node :=
  fold_right (fun c r => RegExp.Seq (RegExp.Char c) r) RegExp.Empty q.

(** Two strings that the [i] flag does not tell apart: the same code units
    up to [Canonicalize].  This is the comparison the matcher makes; it is
    not the one of [toLowerCase]. *)
Definition sameUnderI (a b : str) : Prop :=
  map RegExp.Canonicalize a = map RegExp.Canonicalize b.

(** [s] starts with, and [v] contains, a string that the [i] flag does not
    tell from [q]. *)
Definition prefixUnderI (q s : str) : Prop :=
  exists mid post, s = mid ++ post /\ sameUnderI mid q.

Definition containsUnderI (v q : str) : Prop :=
  exists pre mid post, v = pre ++ mid ++ post /\ sameUnderI mid q.

Fixpoint startsUnderI (s q : str) {struct q} : bool :=
  match q, s with
  | [], _ => true
  | _ :: _, [] => false
  | c :: q', d :: s' =>
      (RegExp.Canonicalize c =? RegExp.Canonicalize d)%N && startsUnderI s' q'
  end.

Fixpoint includesUnderI (s q : str) : bool :=
  startsUnderI s q ||
  match s with
  | [] => false
  | _ :: t => includesUnderI t q
  end.

(** The control with the sort direction set. *)
Definition withDirection (this : Control) (ascending : bool) : Control :=
  mkControl (searchInput this) (currentSortColumn this) ascending (currentPage this).

(** A highlighted occurrence as it is written into the cell. *)
Definition marked (s : String.string) : str :=
  RegExp.before highlightSpan ++ lit s ++ RegExp.after highlightSpan.

(** ** Sample data sets *)

Module Samples.

(** A data set given as a table: for each record its id and the formatted
    values it has, by column name. *)
Definition valueIn (column : str) (values : list (str * str)) : option str :=
  option_map snd (find (fun kv => str_eqb (fst kv) column) values).

Definition tableOf (cols : list Column) (rows : list (RecordId * list (str * str)))
  : DataSet :=
  mkDataSet cols (map fst rows)
    (fun recordId column =>
       match find (fun row => str_eqb (fst row) recordId) rows with
       | Some row => valueIn column (snd row)
       | None => None
       end).

Definition fullnameColumn : Column := mkColumn (lit "fullname") (lit "Full Name").
Definition emailColumn : Column := mkColumn (lit "emailaddress1") (lit "Email").

Definition contactRows : list (RecordId * list (str * str)) :=
  [ (lit "c1", [ (lit "fullname", lit "Tara Young"); (lit "emailaddress1", lit "ty@contoso.com") ]);
    (lit "c2", [ (lit "fullname", lit "Alice Smith"); (lit "emailaddress1", lit "as@contoso.com") ]);
    (lit "c3", [ (lit "fullname", lit "Bob Stone") ]);
    (lit "c4", [ (lit "fullname", lit "Alice Smith"); (lit "emailaddress1", lit "smith@contoso.com") ]) ].

(** Both columns in the view. *)
Definition contacts : DataSet := tableOf [fullnameColumn; emailColumn] contactRows.

(** The same records in a view that shows the e-mail column only. *)
Definition contactsByEmail : DataSet := tableOf [emailColumn] contactRows.

(** Thirty records, named by one code unit each, with a full name only. *)
Definition thirty : DataSet :=
  tableOf [fullnameColumn]
    (map (fun n => ([ascii_of_nat (64 + n)], [ (lit "fullname", [ascii_of_nat (64 + n)]) ]))
         (seq 1 30)).

Definition onPage (p : Z) : Control := mkControl [] None true p.

Definition searching (text : String.string) : Control := mkControl (lit text) None true 1.

Definition sortedBy (column : String.string) (ascending : bool) : Control :=
  mkControl [] (Some (lit column)) ascending 1.

(** The first three contacts: no two with the same full name. *)
Definition threeContacts : DataSet :=
  tableOf [fullnameColumn; emailColumn] (firstn 3 contactRows).

End Samples.

(** ** Further notions *)

(** The numbers of the pages: 1..[pages]. *)
Definition pageNumbers (pages : Z) : list Z :=
  map Z.of_nat (seq 1 (Z.to_nat pages)).

(** The control with no sort column, the other fields kept. *)
Definition unsorted (this : Control) : Control :=
  mkControl (searchInput this) None true (currentPage this).

(** The test of the filter, in words: the lower-case form of [v] contains
    the lower-case form of [q]. *)
Definition containsLowered (v q : str) : Prop :=
  exists pre post, toLowerCase v = pre ++ toLowerCase q ++ post.

(** The filter for a query [q]: the primary column or some declared column
    contains [q] in that sense, an absent value read as the empty string. *)
Definition loweredMatch (ds : DataSet) (q : str) (recordId : RecordId) : Prop :=
  containsLowered (valueOf ds recordId (lit "fullname")) q \/
  exists column, In column (columns ds) /\
                 containsLowered (valueOf ds recordId (name column)) q.

(** A view whose one column has the empty name. *)
Definition unnamedColumnData : DataSet :=
  Samples.tableOf [mkColumn [] (lit "Name")]
    [ (lit "r1", [ ([], lit "Bob") ]); (lit "r2", [ ([], lit "Alice") ]) ].

(** An occurrence in its marker. *)
Definition wrap (s : str) : str :=
  RegExp.before highlightSpan ++ s ++ RegExp.after highlightSpan.

(** A query whose only pattern syntax is parentheses. *)
Definition isParenOrPlain (q : str) : bool :=
  forallb (fun c => RegExp.isChar c "()" || negb (RegExp.isSyntaxCharacter c)) q.

(** The parentheses still open after [s], read at nesting depth [depth];
    [None] when one closes that was never opened. *)
Fixpoint closes (s : str) (depth : nat) : option nat :=
  match s with
  | [] => Some depth
  | c :: s' =>
      if RegExp.isChar c "(" then closes s' (S depth)
      else if RegExp.isChar c ")" then
        match depth with
        | O => None
        | S d => closes s' d
        end
      else closes s' depth
  end.

(** ** The elements the control builds

    [classList.add] of the DOM throws a SyntaxError DOMException when a
    token is the empty string and an InvalidCharacterError when a token has
    white space; otherwise it adds the token. *)

Inductive DomException : Type := DomSyntaxError | InvalidCharacterError.

Inductive DomResult (A : Type) : Type :=
| DomOk (a : A)
| DomThrows (e : DomException).
Arguments DomOk {A} a.
Arguments DomThrows {A} e.

Definition domBind {A B : Type} (r : DomResult A) (k : A -> DomResult B)
  : DomResult B :=
  match r with
  | DomOk a => k a
  | DomThrows e => DomThrows e
  end.

(** ASCII whitespace of the DOM: TAB, LF, FF, CR and SP. *)
Definition isAsciiWhitespace (c : ascii) : bool :=
  let n := code c in
  ((n =? 9) || (n =? 10) || (n =? 12) || (n =? 13) || (n =? 32))%N.

Definition classListAdd (token : str) : DomResult unit :=
  if negb (truthy token) then DomThrows DomSyntaxError
  else if existsb isAsciiWhitespace token then DomThrows InvalidCharacterError
  else DomOk tt.

(** A page button: the page it sets and whether it holds the class
    [active]. *)
Record PageButton : Type := mkPageButton {
  buttonPage : Z;
  isActive : bool
}.

(** The pagination bar: the two [disabled] flags, the page buttons, and the
    page count that the listener of Next holds. *)
Record PaginationBar : Type := mkPaginationBar {
  prevDisabled : bool;
  nextDisabled : bool;
  pageButtons : list PageButton;
  barTotalPages : Z
}.

(** The loop [for (let i = 1; i <= totalPages; i++)] from [i] on, with
    [count] rounds left. *)
Fixpoint pageButtonsFrom (count : nat) (i : Z) (current : Z)
  : DomResult (list PageButton) :=
  match count with
  | O => DomOk []
  | S count' =>
      domBind (classListAdd (if i =? current then lit "active" else lit ""))
        (fun _ =>
           domBind (pageButtonsFrom count' (i + 1) current)
             (fun buttons => DomOk (mkPageButton i (i =? current) :: buttons)))
  end.

(** [renderPaginationControls], called with the fields as the rendering
    left them. *)
Definition renderPaginationControls (this : Control) (pages : Z)
  : DomResult PaginationBar :=
  domBind (classListAdd (lit "pagination"))
    (fun _ =>
       domBind (pageButtonsFrom (Z.to_nat pages) 1 (currentPage this))
         (fun buttons =>
            DomOk (mkPaginationBar (currentPage this =? 1)
                                   (currentPage this =? pages)
                                   buttons pages))).

(** The children of the container. *)
Inductive Child : Type :=
| SearchBox
| TableElement (headers : list str)              (* the column names *)
| PaginationElement (bar : PaginationBar).

Definition mayThrow {A : Type} (c : Completion A) : Prop :=
  match c with Normal _ => False | _ => True end.

Definition mayReturn {A : Type} (c : Completion A) : Prop :=
  match c with ThrowSyntaxError => False | _ => True end.

(** The container when the cells are built: the table, and the pagination
    bar unless its construction throws. *)
Definition tableAndBar {collator : Collator} (ds : DataSet) (this : Control)
  : list Child :=
  TableElement (map name (columns ds)) ::
  match renderPaginationControls (fst (renderTable ds this)) (totalPages ds this) with
  | DomOk bar => [PaginationElement bar]
  | DomThrows _ => []
  end.

(** The container after [renderTable]: it is emptied first; if
    [highlightText] throws it stays empty.  For cells outside the embedded
    pattern fragment both courses are kept. *)
Inductive rendersTo {collator : Collator} (ds : DataSet) (this : Control)
  : list Child -> Prop :=
| render_aborted : mayThrow (tableCells ds this) -> rendersTo ds this []
| render_shown : mayReturn (tableCells ds this) ->
                 rendersTo ds this (tableAndBar ds this).

(** The control with its container. *)
Record World : Type := mkWorld {
  control : Control;
  container : list Child
}.

(** After [init]: the search box is the one child. *)
Definition liveStart : World := mkWorld initial [SearchBox].

(** The events as the page allows them: a listener runs only if its element
    is in the container (a disabled button is taken to be clickable all the
    same).  A click whose guard fails changes nothing and is no step. *)
Inductive liveStep {collator : Collator} : World -> World -> Prop :=
| live_typed : forall w ds text children,
    In SearchBox (container w) ->
    rendersTo ds (setPage (setSearch (control w) text) 1) children ->
    liveStep w (mkWorld (fst (updateView ds (setPage (setSearch (control w) text) 1)))
                        children)
| live_header : forall w ds headers columnName children,
    In (TableElement headers) (container w) -> In columnName headers ->
    rendersTo ds (sortTableFields (control w) columnName) children ->
    liveStep w (mkWorld (fst (sortTable ds (control w) columnName)) children)
| live_previous : forall w ds bar children,
    In (PaginationElement bar) (container w) ->
    1 < currentPage (control w) ->
    rendersTo ds (setPage (control w) (currentPage (control w) - 1)) children ->
    liveStep w (mkWorld (fst (updateView ds (setPage (control w) (currentPage (control w) - 1))))
                        children)
| live_next : forall w ds bar children,
    In (PaginationElement bar) (container w) ->
    currentPage (control w) < barTotalPages bar ->
    rendersTo ds (setPage (control w) (currentPage (control w) + 1)) children ->
    liveStep w (mkWorld (fst (updateView ds (setPage (control w) (currentPage (control w) + 1))))
                        children)
| live_page : forall w ds bar button children,
    In (PaginationElement bar) (container w) -> In button (pageButtons bar) ->
    rendersTo ds (setPage (control w) (buttonPage button)) children ->
    liveStep w (mkWorld (fst (updateView ds (setPage (control w) (buttonPage button))))
                        children)
| live_updated : forall w ds children,
    rendersTo ds (control w) children ->
    liveStep w (mkWorld (fst (updateView ds (control w))) children)
| live_destroyed : forall w, liveStep w (mkWorld (control w) []).

Inductive liveReachable {collator : Collator} : World -> Prop :=
| live_init : liveReachable liveStart
| live_after : forall w w', liveReachable w -> liveStep w w' -> liveReachable w'.

(** What holds of the control in the page: it is on page 1, and every
    pagination bar in the container was built for at most one page. *)
Definition onFirstPage (w : World) : Prop :=
  currentPage (control w) = 1 /\
  forall bar, In (PaginationElement bar) (container w) ->
    barTotalPages bar <= 1 /\
    forall button, In button (pageButtons bar) -> buttonPage button = 1.

(** ** Strings *)

Section StringFacts.

Lemma startsWith_prefix (sub s : str) :
  startsWith s sub = true <-> exists post, s = sub ++ post.
Proof.
  revert s; induction sub as [|a sub IH]; intros s; simpl.
  - split; [intros _; now exists s | reflexivity].
  - destruct s as [|b s].
    + split; [discriminate | intros [post H]; discriminate].
    + destruct (ascii_dec a b) as [->|Hab].
      * rewrite IH. split; intros [post H]; exists post.
        -- now rewrite H.
        -- now injection H.
      * split; [discriminate|]. intros [post H]. injection H as H1 _.
        now elim Hab.
Qed.

Lemma includes_substring (s sub : str) :
  includes s sub = true <-> exists pre post, s = pre ++ sub ++ post.
Proof.
  induction s as [|c s IH]; simpl.
  - rewrite orb_false_r, startsWith_prefix. split.
    + intros [post H]. now exists [], post.
    + intros [pre [post H]]. destruct pre; [now exists post | discriminate].
  - rewrite orb_true_iff, startsWith_prefix, IH. split.
    + intros [[post H] | [pre [post H]]].
      * now exists [], post.
      * exists (c :: pre), post. now rewrite H.
    + intros [pre [post H]]. destruct pre as [|c' pre]; simpl in H.
      * left. now exists post.
      * right. injection H as _ H. now exists pre, post.
Qed.

Lemma includes_empty (s : str) : includes s [] = true.
Proof. destruct s; reflexivity. Qed.

Lemma includes_in_empty (sub : str) : includes [] sub = true -> sub = [].
Proof. destruct sub; [reflexivity | discriminate]. Qed.

(** The test of the code, [v.toLowerCase().includes(q.toLowerCase())], is
    the case-insensitive containment of the specification. *)
Lemma containsCI_includes (v q : str) :
  containsCI v q <-> includes (toLowerCase v) (toLowerCase q) = true.
Proof.
  rewrite includes_substring. unfold containsCI, toLowerCase. split.
  - intros (pre & mid & post & -> & Hmid).
    exists (map lowerChar pre), (map lowerChar post).
    now rewrite !map_app, Hmid.
  - intros (pre & post & H).
    apply map_eq_app in H as (pre' & rest & -> & _ & H).
    apply map_eq_app in H as (mid & post' & -> & Hmid & _).
    now exists pre', mid, post'.
Qed.

Lemma containsCI_empty_value (q : str) : containsCI [] q -> q = [].
Proof.
  rewrite containsCI_includes. intros H. apply includes_in_empty in H.
  now destruct q.
Qed.

Lemma containsCI_empty_query (v : str) : containsCI v [].
Proof. now exists [], [], v. Qed.

Lemma lowerChar_idempotent (c : ascii) : lowerChar (lowerChar c) = lowerChar c.
Proof.
  destruct c as [[] [] [] [] [] [] [] []]; reflexivity.
Qed.

Lemma toLowerCase_idempotent (s : str) : toLowerCase (toLowerCase s) = toLowerCase s.
Proof.
  unfold toLowerCase. rewrite map_map. apply map_ext, lowerChar_idempotent.
Qed.

Lemma str_eqb_eq (a b : str) : str_eqb a b = true <-> a = b.
Proof.
  unfold str_eqb. destruct (list_eq_dec ascii_dec a b); split; congruence.
Qed.

End StringFacts.

(** ** The stable sort *)

Section SortedLists.
Context {A : Type}.
Implicit Type R : A -> A -> Prop.

Lemma StronglySorted_snoc R (l : list A) (a : A) :
  StronglySorted R l -> Forall (fun x => R x a) l -> StronglySorted R (l ++ [a]).
Proof.
  induction 1 as [|b l Hl IH Hb]; intros Ha; simpl.
  - repeat constructor.
  - inversion_clear Ha as [|? ? Hba Hla]. constructor; [auto|].
    apply Forall_app; split; [exact Hb | now constructor].
Qed.

Lemma StronglySorted_rev R (l : list A) :
  StronglySorted R l -> StronglySorted (fun a b => R b a) (rev l).
Proof.
  induction 1 as [|a l Hl IH Ha]; simpl; [constructor|].
  apply StronglySorted_snoc; [exact IH|].
  apply Forall_rev. exact Ha.
Qed.

(** Two lists in strictly increasing order with the same elements are the
    same list. *)
Lemma StronglySorted_unique R (l1 l2 : list A) :
  (forall a b, R a b -> R b a -> False) ->
  StronglySorted R l1 -> StronglySorted R l2 -> Permutation l1 l2 -> l1 = l2.
Proof.
  intros asym H1; revert l2.
  induction H1 as [|a l1 Hl1 IH Ha]; intros l2 H2 HP.
  - apply Permutation_nil in HP. now subst.
  - destruct H2 as [|b l2 Hl2 Hb].
    + apply Permutation_sym, Permutation_nil in HP. discriminate.
    + assert (a = b) as ->.
      { assert (Hin : In a (b :: l2)) by (eapply Permutation_in; [exact HP | now left]).
        assert (Hin' : In b (a :: l1))
          by (eapply Permutation_in; [apply Permutation_sym; exact HP | now left]).
        destruct Hin as [->|Hin]; [reflexivity|].
        destruct Hin' as [->|Hin']; [reflexivity|].
        rewrite Forall_forall in Ha, Hb.
        elim (asym a b); auto. }
      f_equal. apply IH; [exact Hl2|]. eapply Permutation_cons_inv; exact HP.
Qed.

Lemma StronglySorted_strengthen R R' (l : list A) :
  NoDup l ->
  (forall a b, In a l -> In b l -> a <> b -> R a b -> R' a b) ->
  StronglySorted R l -> StronglySorted R' l.
Proof.
  intros Hnd Himp Hs; induction Hs as [|a l Hl IH Ha]; [constructor|].
  inversion_clear Hnd as [|? ? Hnotin Hnd'].
  constructor.
  - apply IH; [exact Hnd'|]. intros x y Hx Hy. apply Himp; now right.
  - rewrite Forall_forall in Ha |- *. intros x Hx.
    apply Himp; [now left | now right | | auto].
    intros ->. contradiction.
Qed.

End SortedLists.

Section SortFacts.
Context {A : Type} (cmp : A -> A -> Z).

Lemma insert_permutation (x : A) (l : list A) : Permutation (insert cmp x l) (x :: l).
Proof.
  induction l as [|y l IH]; simpl; [reflexivity|].
  destruct (cmp x y <=? 0); [reflexivity|].
  rewrite IH. apply perm_swap.
Qed.

Lemma sort_permutation (l : list A) : Permutation (sort cmp l) l.
Proof.
  induction l as [|x l IH]; simpl; [reflexivity|].
  rewrite insert_permutation. now constructor.
Qed.

Lemma sort_In (l : list A) (x : A) : In x (sort cmp l) <-> In x l.
Proof.
  split; apply Permutation_in;
    [apply sort_permutation | apply Permutation_sym, sort_permutation].
Qed.

Hypothesis cmp_antisym : forall a b, Z.sgn (cmp a b) = - Z.sgn (cmp b a).
Hypothesis cmp_trans : forall a b c, cmp a b <= 0 -> cmp b c <= 0 -> cmp a c <= 0.

Lemma cmp_gt_flip (a b : A) : 0 < cmp a b -> cmp b a < 0.
Proof. intros H. pose proof (cmp_antisym a b). lia. Qed.

Lemma cmp_zero_flip (a b : A) : cmp a b = 0 -> cmp b a = 0.
Proof. intros H. pose proof (cmp_antisym a b). lia. Qed.

Lemma insert_sorted (x : A) (l : list A) :
  StronglySorted (fun a b => cmp a b <= 0) l ->
  StronglySorted (fun a b => cmp a b <= 0) (insert cmp x l).
Proof.
  induction 1 as [|y l Hl IH Hy]; simpl.
  - repeat constructor.
  - destruct (Z.leb_spec (cmp x y) 0) as [Hxy|Hxy].
    + constructor; [now constructor|].
      constructor; [exact Hxy|].
      eapply Forall_impl; [|exact Hy]. intros z Hz. now apply cmp_trans with y.
    + constructor; [exact IH|].
      eapply Permutation_Forall; [apply Permutation_sym, insert_permutation|].
      constructor; [|exact Hy]. apply cmp_gt_flip in Hxy. lia.
Qed.

Lemma sort_sorted (l : list A) : StronglySorted (fun a b => cmp a b <= 0) (sort cmp l).
Proof.
  induction l as [|x l IH]; simpl; [constructor | now apply insert_sorted].
Qed.

(** Stability: elements no one of which comes after another come out in
    the order they came in. *)
Lemma insert_stable (P : A -> bool) (x : A) (l : list A) :
  (forall a b, P a = true -> P b = true -> cmp a b <= 0) ->
  filter P (insert cmp x l) = filter P (x :: l).
Proof.
  intros HP. induction l as [|y l IH]; [reflexivity|].
  cbn [insert]. destruct (Z.leb_spec (cmp x y) 0) as [Hxy|Hxy]; [reflexivity|].
  cbn [filter] in IH |- *. rewrite IH.
  destruct (P y) eqn:Hy; [|reflexivity].
  destruct (P x) eqn:Hx; [|reflexivity].
  specialize (HP x y Hx Hy). lia.
Qed.

Lemma sort_stable (P : A -> bool) (l : list A) :
  (forall a b, P a = true -> P b = true -> cmp a b <= 0) ->
  filter P (sort cmp l) = filter P l.
Proof.
  intros HP. induction l as [|x l IH]; [reflexivity|].
  cbn [sort]. rewrite insert_stable by exact HP. cbn [filter]. now rewrite IH.
Qed.

Lemma sort_strictly_sorted (l : list A) :
  NoDup l ->
  (forall a b, In a l -> In b l -> a <> b -> cmp a b <> 0) ->
  StronglySorted (fun a b => cmp a b < 0) (sort cmp l).
Proof.
  intros Hnd Hne.
  apply StronglySorted_strengthen with (R := fun a b => cmp a b <= 0).
  - eapply Permutation_NoDup; [apply Permutation_sym, sort_permutation | exact Hnd].
  - intros a b Ha Hb Hab Hle. rewrite sort_In in Ha, Hb.
    specialize (Hne a b Ha Hb Hab). lia.
  - apply sort_sorted.
Qed.

End SortFacts.

(** Sorting with the arguments of the comparison swapped reverses the
    result when no two elements compare equal. *)
Lemma sort_flip_rev {A : Type} (cmp : A -> A -> Z) (l : list A) :
  (forall a b, Z.sgn (cmp a b) = - Z.sgn (cmp b a)) ->
  (forall a b c, cmp a b <= 0 -> cmp b c <= 0 -> cmp a c <= 0) ->
  NoDup l ->
  (forall a b, In a l -> In b l -> a <> b -> cmp a b <> 0) ->
  sort (fun a b => cmp b a) l = rev (sort cmp l).
Proof.
  intros Hanti Htrans Hnd Hne.
  apply StronglySorted_unique with (R := fun a b => cmp b a < 0).
  - intros a b H1 H2. pose proof (Hanti a b). lia.
  - apply (sort_strictly_sorted (fun a b => cmp b a)); auto.
    intros a b c H1 H2. now apply Htrans with b.
  - apply (StronglySorted_rev (fun a b => cmp a b < 0)).
    now apply sort_strictly_sorted.
  - rewrite sort_permutation, <- Permutation_rev.
    apply Permutation_sym, sort_permutation.
Qed.

(** ** Arrays and pages *)

Lemma firstn_min_length {A : Type} (n : nat) (l : list A) :
  firstn (Nat.min n (length l)) l = firstn n l.
Proof.
  destruct (Nat.le_ge_cases n (length l)) as [H|H].
  - now rewrite Nat.min_l.
  - rewrite Nat.min_r by exact H. now rewrite !firstn_all2.
Qed.

(** A slice that starts at a non-negative index is the window of the
    stated width. *)
Lemma slice_window {A : Type} (l : list A) (start width : Z) :
  0 <= start -> 0 <= width ->
  slice l start (start + width) =
  firstn (Z.to_nat width) (skipn (Z.to_nat start) l).
Proof.
  intros Hs Hw. unfold slice, relativeIndex.
  destruct (Z.ltb_spec start 0) as [?|_]; [lia|].
  destruct (Z.ltb_spec (start + width) 0) as [?|_]; [lia|].
  set (len := Z.of_nat (length l)).
  destruct (Z.le_gt_cases start len) as [Hle|Hgt].
  - rewrite (Z.min_l start len) by exact Hle.
    rewrite <- (firstn_min_length (Z.to_nat width)).
    f_equal. rewrite length_skipn. subst len. lia.
  - rewrite (Z.min_r start len) by lia.
    rewrite (Z.min_r (start + width) len) by lia.
    rewrite Z.sub_diag. cbn [Z.to_nat firstn].
    rewrite (skipn_all2 l) by (subst len; lia).
    now rewrite firstn_nil.
Qed.

Lemma ceilDiv_bounds (n : Z) :
  0 <= n ->
  recordsPerPage * (ceilDiv n recordsPerPage - 1) < n <= recordsPerPage * ceilDiv n recordsPerPage.
Proof.
  intros Hn. unfold ceilDiv, recordsPerPage.
  pose proof (Z.div_mod (n + 13 - 1) 13 ltac:(lia)).
  pose proof (Z.mod_pos_bound (n + 13 - 1) 13 ltac:(lia)). lia.
Qed.

Lemma ceilDiv_zero (n : Z) : 0 <= n -> (ceilDiv n recordsPerPage = 0 <-> n = 0).
Proof.
  intros Hn. pose proof (ceilDiv_bounds n Hn). unfold recordsPerPage in *. lia.
Qed.

Lemma ceilDiv_nonneg (n : Z) : 0 <= n -> 0 <= ceilDiv n recordsPerPage.
Proof.
  intros Hn. pose proof (ceilDiv_bounds n Hn). unfold recordsPerPage in *. lia.
Qed.

Section PageFacts.
Context {collator : Collator}.
Variable ds : DataSet.
Variable this : Control.

Lemma totalRecords_nonneg : 0 <= totalRecords ds this.
Proof. unfold totalRecords. lia. Qed.

Lemma totalPages_nonneg : 0 <= totalPages ds this.
Proof. apply ceilDiv_nonneg, totalRecords_nonneg. Qed.

(** From a requested page that is not negative, the assignment to
    [currentPage] yields the nearest page in range. *)
Lemma clampedPage_nearest :
  0 <= currentPage this ->
  clampedPage ds this = nearestPage (totalPages ds this) (currentPage this).
Proof.
  intros Hp. pose proof totalPages_nonneg as Ht.
  unfold clampedPage, nearestPage, orOne.
  destruct (Z.eqb_spec (Z.min (currentPage this) (totalPages ds this)) 0); lia.
Qed.

(** A negative page is handed through as it is. *)
Lemma clampedPage_negative :
  currentPage this < 0 -> clampedPage ds this = currentPage this.
Proof.
  intros Hp. pose proof totalPages_nonneg as Ht.
  unfold clampedPage, orOne.
  destruct (Z.eqb_spec (Z.min (currentPage this) (totalPages ds this)) 0); lia.
Qed.

Lemma clampedPage_upper : clampedPage ds this <= Z.max (totalPages ds this) 1.
Proof.
  unfold clampedPage, orOne.
  destruct (Z.eqb_spec (Z.min (currentPage this) (totalPages ds this)) 0); lia.
Qed.

Lemma startIndex_in_range :
  1 <= clampedPage ds this ->
  0 <= startIndex ds this <= totalRecords ds this.
Proof.
  intros Hp. pose proof clampedPage_upper as Hu.
  pose proof (ceilDiv_bounds _ totalRecords_nonneg) as Hb.
  fold (totalPages ds this) in Hb.
  unfold startIndex, recordsPerPage in *. pose proof totalRecords_nonneg.
  destruct (Z.eq_dec (totalPages ds this) 0) as [Hz|Hz]; nia.
Qed.

End PageFacts.

(** ** Highlighting *)

(** C1. The claim: the highlighting treats every character of the query as
    literal text; it neither fails on a query with pattern syntax nor marks
    anything but the occurrences of the query.  The code builds the pattern
    from the query as it is: on the query [(] the construction of the
    regular expression throws a SyntaxError, and on the query [.] every
    character of the value is marked. *)
Theorem highlightText_reads_query_as_pattern :
  highlightText (lit "a(b") (lit "(") = ThrowSyntaxError /\
  highlightText (lit "abc") (lit ".") = Normal (marked "a" ++ marked "b" ++ marked "c").
Proof. split; vm_compute; reflexivity. Qed.

(** C6. The claim: a value that does not contain the query comes back
    unchanged, and a value that contains it comes back with the occurrences
    marked.  On the query [.] the value [ab], which has no full stop, comes
    back with both letters marked; on the query [+] the value [a+b], which
    contains it, yields no result: the call throws. *)
Theorem highlightText_round_trip_fails :
  (~ containsCI (lit "ab") (lit ".") /\
   highlightText (lit "ab") (lit ".") = Normal (marked "a" ++ marked "b")) /\
  (containsCI (lit "a+b") (lit "+") /\
   highlightText (lit "a+b") (lit "+") = ThrowSyntaxError).
Proof.
  repeat split; try (vm_compute; reflexivity).
  - rewrite containsCI_includes. vm_compute. discriminate.
  - rewrite containsCI_includes. vm_compute. reflexivity.
Qed.

(** ** Sorting by a header *)

Lemma isSortColumn_eq (this : Control) (columnName : str) :
  isSortColumn this columnName = true <-> currentSortColumn this = Some columnName.
Proof.
  unfold isSortColumn. destruct (currentSortColumn this) as [c|].
  - rewrite str_eqb_eq. split; congruence.
  - split; discriminate.
Qed.

(** C8. A click on the header of column [C]: when [C] is the sort column
    already, the direction is negated and the column stays; otherwise [C]
    becomes the sort column and the direction becomes ascending. *)
Theorem sortTable_header_click {collator : Collator} (ds : DataSet)
  (this : Control) (C : str) :
  let this' := fst (sortTable ds this C) in
  (currentSortColumn this = Some C ->
   currentSortColumn this' = currentSortColumn this /\
   isAscending this' = negb (isAscending this)) /\
  (currentSortColumn this <> Some C ->
   currentSortColumn this' = Some C /\ isAscending this' = true).
Proof.
  cbn zeta. unfold sortTable, updateView, renderTable, sortTableFields.
  split; intros H.
  - apply isSortColumn_eq in H. rewrite H. now split.
  - destruct (isSortColumn this C) eqn:E.
    + apply isSortColumn_eq in E. contradiction.
    + now split.
Qed.

Lemma sortTable_header_click_witness :
  let again := fst (sortTable (collator := codeUnitCollator) Samples.contacts
                      (Samples.sortedBy "fullname" true) (lit "fullname")) in
  let other := fst (sortTable (collator := codeUnitCollator) Samples.contacts
                      (Samples.sortedBy "fullname" false) (lit "emailaddress1")) in
  (currentSortColumn again = Some (lit "fullname") /\ isAscending again = false) /\
  (currentSortColumn other = Some (lit "emailaddress1") /\ isAscending other = true).
Proof.
  cbn zeta. split.
  - apply (sortTable_header_click (collator := codeUnitCollator) Samples.contacts
             (Samples.sortedBy "fullname" true) (lit "fullname")).
    reflexivity.
  - apply (sortTable_header_click (collator := codeUnitCollator) Samples.contacts
             (Samples.sortedBy "fullname" false) (lit "emailaddress1")).
    vm_compute. discriminate.
Defined.

(** ** The sort indicator *)

Lemma handle_keeps_sortColumn {collator : Collator} (ds : DataSet)
  (w : Control * Z) (e : Event) :
  notHeaderClick e = true ->
  currentSortColumn (fst (handle ds w e)) = currentSortColumn (fst w).
Proof.
  destruct w as [this shown]. destruct e; cbn [notHeaderClick]; intros H;
    try discriminate; cbn [handle fst]; try reflexivity.
  - now destruct (1 <? currentPage this).
  - now destruct (currentPage this <? shown).
  - now destruct ((1 <=? i) && (i <=? shown)).
Qed.

Lemma unsorted_until_header_click {collator : Collator} (w : Control * Z) :
  reachableBy notHeaderClick w -> currentSortColumn (fst w) = None.
Proof.
  induction 1 as [|w ds e Hw IH He]; [reflexivity|].
  now rewrite handle_keeps_sortColumn.
Qed.

(** C9. In every state the control can reach, the indicator of a column is
    the ascending mark exactly when the column is the sort column and the
    direction is ascending, the descending mark exactly when it is the sort
    column and the direction is descending, and no mark for every other
    column; so at most one column name carries a mark.  As long as no header
    has been clicked no column carries one. *)
Theorem sort_indicator_marks_sort_column {collator : Collator} (w : Control * Z) :
  reachable w ->
  let this := fst w in
  (forall C, getSortIndicator this C = UpMark <->
             currentSortColumn this = Some C /\ isAscending this = true) /\
  (forall C, getSortIndicator this C = DownMark <->
             currentSortColumn this = Some C /\ isAscending this = false) /\
  (forall C, getSortIndicator this C = NoMark <-> currentSortColumn this <> Some C) /\
  (forall C1 C2, getSortIndicator this C1 <> NoMark ->
                 getSortIndicator this C2 <> NoMark -> C1 = C2) /\
  (reachableBy notHeaderClick w -> forall C, getSortIndicator this C = NoMark).
Proof.
  intros _ this.
  assert (mark : forall C,
    (isSortColumn this C = true /\ currentSortColumn this = Some C) \/
    (isSortColumn this C = false /\ currentSortColumn this <> Some C)).
  { intros C. destruct (isSortColumn this C) eqn:E.
    - left. split; [reflexivity | now apply isSortColumn_eq].
    - right. split; [reflexivity|]. intros H. apply isSortColumn_eq in H. congruence. }
  assert (none : forall C, getSortIndicator this C = NoMark <->
                           currentSortColumn this <> Some C).
  { intros C. unfold getSortIndicator.
    destruct (mark C) as [[-> H]|[-> H]]; cbn [negb].
    - destruct (isAscending this); split; [discriminate | congruence ..].
    - tauto. }
  repeat split.
  - unfold getSortIndicator in H.
    destruct (mark C) as [[E Hc]|[E Hc]]; rewrite E in H; [exact Hc | discriminate].
  - unfold getSortIndicator in H.
    destruct (mark C) as [[E Hc]|[E Hc]]; rewrite E in H; cbn [negb] in H;
      [now destruct (isAscending this) | discriminate].
  - intros [Hc Ha]. unfold getSortIndicator.
    apply isSortColumn_eq in Hc. now rewrite Hc, Ha.
  - unfold getSortIndicator in H.
    destruct (mark C) as [[E Hc]|[E Hc]]; rewrite E in H; [exact Hc | discriminate].
  - unfold getSortIndicator in H.
    destruct (mark C) as [[E Hc]|[E Hc]]; rewrite E in H; cbn [negb] in H;
      [now destruct (isAscending this) | discriminate].
  - intros [Hc Ha]. unfold getSortIndicator.
    apply isSortColumn_eq in Hc. now rewrite Hc, Ha.
  - apply none.
  - apply none.
  - intros C1 C2 H1 H2.
    destruct (list_eq_dec ascii_dec C1 C2) as [|Hne]; [assumption|].
    rewrite none in H1, H2.
    destruct (currentSortColumn this) as [c|].
    + destruct (list_eq_dec ascii_dec c C1) as [->|H1'].
      * elim H2. intros H. congruence.
      * elim H1. intros H. congruence.
    + elim H1. discriminate.
  - intros Hw C. apply none. unfold this.
    rewrite (unsorted_until_header_click w Hw). discriminate.
Qed.

Lemma sort_indicator_marks_sort_column_witness :
  let w := handle (collator := codeUnitCollator) Samples.contacts (initial, 0)
             (HeaderClicked (lit "fullname")) in
  reachable (collator := codeUnitCollator) w /\
  getSortIndicator (fst w) (lit "fullname") = UpMark /\
  getSortIndicator (fst w) (lit "emailaddress1") = NoMark.
Proof.
  cbn zeta.
  assert (R : reachable (collator := codeUnitCollator)
                (handle (collator := codeUnitCollator) Samples.contacts
                   (initial, 0) (HeaderClicked (lit "fullname")))).
  { apply reachable_step; [apply reachable_init | reflexivity]. }
  split; [exact R|].
  destruct (sort_indicator_marks_sort_column _ R) as (Hup & _ & Hnone & _).
  split.
  - apply Hup. vm_compute. split; reflexivity.
  - apply Hnone. vm_compute. discriminate.
Defined.

(** ** The query *)

(** C10. The rendering depends on the text of the search box only through
    its trimmed, lower-case form: two texts with the same such form give the
    same filtered records, the same page count and page, the same rows and
    the same highlighted cells. *)
Theorem render_depends_on_normalized_query {collator : Collator} (ds : DataSet)
  (this : Control) (q1 q2 : str) :
  toLowerCase (trim q1) = toLowerCase (trim q2) ->
  filteredRecords ds (setSearch this q1) = filteredRecords ds (setSearch this q2) /\
  snd (renderTable ds (setSearch this q1)) = snd (renderTable ds (setSearch this q2)) /\
  currentPage (fst (renderTable ds (setSearch this q1))) =
  currentPage (fst (renderTable ds (setSearch this q2))).
Proof.
  intros H.
  assert (Hf : filteredRecords ds (setSearch this q1) = filteredRecords ds (setSearch this q2)).
  { unfold filteredRecords, matchesFullName, matchesOtherFields, searchQuery.
    cbn [setSearch searchInput]. now rewrite H. }
  assert (Ht : totalPages ds (setSearch this q1) = totalPages ds (setSearch this q2)).
  { unfold totalPages, totalRecords. now rewrite Hf. }
  assert (Hp : clampedPage ds (setSearch this q1) = clampedPage ds (setSearch this q2)).
  { unfold clampedPage. now rewrite Ht. }
  assert (Hr : paginatedRecords ds (setSearch this q1) = paginatedRecords ds (setSearch this q2)).
  { unfold paginatedRecords, startIndex. now rewrite Hf, Hp. }
  split; [exact Hf|]. split; [|exact Hp].
  unfold renderTable. cbn [snd]. f_equal; try assumption.
  unfold tableCells, searchQuery. cbn [setSearch searchInput]. now rewrite Hr, H.
Qed.

Lemma render_depends_on_normalized_query_witness :
  snd (renderTable (collator := codeUnitCollator) Samples.contacts
         (setSearch initial (lit "  ALICE ")))
  = snd (renderTable (collator := codeUnitCollator) Samples.contacts
           (setSearch initial (lit "alice"))).
Proof.
  apply (render_depends_on_normalized_query (collator := codeUnitCollator)
           Samples.contacts initial (lit "  ALICE ") (lit "alice")).
  vm_compute. reflexivity.
Defined.

(** ** The search filter *)

Section FilterFacts.
Context {collator : Collator}.
Variable ds : DataSet.
Variable this : Control.

Lemma sortedRecords_In (recordId : RecordId) :
  In recordId (sortedRecords ds this) <-> In recordId (sortedRecordIds ds).
Proof.
  unfold sortedRecords. destruct (currentSortColumn this) as [column|]; [|reflexivity].
  destruct (truthy column); [apply sort_In | reflexivity].
Qed.

Lemma sortedRecords_permutation : Permutation (sortedRecords ds this) (sortedRecordIds ds).
Proof.
  unfold sortedRecords. destruct (currentSortColumn this) as [column|]; [|reflexivity].
  destruct (truthy column); [apply sort_permutation | reflexivity].
Qed.

Lemma matchesFullName_containsCI (recordId : RecordId) :
  matchesFullName ds this recordId = true <->
  containsCI (valueOf ds recordId (lit "fullname")) (trim (searchInput this)).
Proof.
  rewrite containsCI_includes. unfold matchesFullName, searchQuery, valueOf.
  now destruct (getFormattedValue ds recordId (lit "fullname")).
Qed.

Lemma matchesOtherFields_containsCI (recordId : RecordId) :
  matchesOtherFields ds this recordId = true <->
  exists column, In column (columns ds) /\
    exists v, getFormattedValue ds recordId (name column) = Some v /\
              containsCI v (trim (searchInput this)).
Proof.
  unfold matchesOtherFields. rewrite existsb_exists.
  split; intros (column & Hin & H); exists column; (split; [exact Hin|]).
  - destruct (getFormattedValue ds recordId (name column)) as [v|]; [|discriminate].
    exists v. split; [reflexivity|]. now apply containsCI_includes.
  - destruct H as (v & -> & H). now apply containsCI_includes.
Qed.

Lemma filter_passes_specMatch (recordId : RecordId) :
  matchesFullName ds this recordId || matchesOtherFields ds this recordId = true <->
  specMatch ds (trim (searchInput this)) recordId.
Proof.
  rewrite orb_true_iff, matchesFullName_containsCI, matchesOtherFields_containsCI.
  unfold specMatch. split.
  - intros [H | (column & Hin & v & Hv & H)]; [now left|].
    right. exists column. split; [exact Hin|]. unfold valueOf. now rewrite Hv.
  - intros [H | (column & Hin & H)]; [now left|].
    unfold valueOf in H.
    destruct (getFormattedValue ds recordId (name column)) as [v|] eqn:Hv.
    + right. exists column. split; [exact Hin|]. now exists v.
    + left. apply containsCI_empty_value in H. rewrite H.
      apply containsCI_empty_query.
Qed.

End FilterFacts.

(** The filter compares lower-case forms.  What follows uses two facts of
    [toLowerCase] only, both true of String.prototype.toLowerCase on every
    string: the empty string stays empty, and no other string becomes
    empty. *)
Section LoweredFacts.
Context {collator : Collator}.
Variable ds : DataSet.
Variable this : Control.

Lemma includes_containsLowered (v q : str) :
  includes (toLowerCase v) (toLowerCase q) = true <-> containsLowered v q.
Proof. apply includes_substring. Qed.

Lemma toLowerCase_empty : toLowerCase [] = [].
Proof. reflexivity. Qed.

Lemma toLowerCase_nonempty (q : str) : toLowerCase q = [] -> q = [].
Proof. apply map_eq_nil. Qed.

Lemma containsLowered_empty_value (q : str) :
  containsLowered [] q -> toLowerCase q = [].
Proof.
  intros (pre & post & H). rewrite toLowerCase_empty in H. symmetry in H.
  apply app_eq_nil in H as [_ H]. now apply app_eq_nil in H as [H _].
Qed.

Lemma matchesFullName_lowered (recordId : RecordId) :
  matchesFullName ds this recordId = true <->
  containsLowered (valueOf ds recordId (lit "fullname")) (trim (searchInput this)).
Proof.
  rewrite <- includes_containsLowered. unfold matchesFullName, searchQuery, valueOf.
  destruct (getFormattedValue ds recordId (lit "fullname")); cbn [option_map orEmpty].
  - reflexivity.
  - now rewrite toLowerCase_empty.
Qed.

Lemma matchesOtherFields_lowered (recordId : RecordId) :
  matchesOtherFields ds this recordId = true <->
  exists column, In column (columns ds) /\
    exists v, getFormattedValue ds recordId (name column) = Some v /\
              containsLowered v (trim (searchInput this)).
Proof.
  unfold matchesOtherFields. rewrite existsb_exists.
  split; intros (column & Hin & H); exists column; (split; [exact Hin|]).
  - destruct (getFormattedValue ds recordId (name column)) as [v|]; [|discriminate].
    exists v. split; [reflexivity|]. now apply includes_containsLowered.
  - destruct H as (v & -> & H). now apply includes_containsLowered.
Qed.

Lemma filter_passes_loweredMatch (recordId : RecordId) :
  matchesFullName ds this recordId || matchesOtherFields ds this recordId = true <->
  loweredMatch ds (trim (searchInput this)) recordId.
Proof.
  rewrite orb_true_iff, matchesOtherFields_lowered. unfold loweredMatch. split.
  - intros [H | (column & Hin & v & Hv & H)].
    + left. now apply matchesFullName_lowered.
    + right. exists column. split; [exact Hin|]. unfold valueOf. now rewrite Hv.
  - intros [H | (column & Hin & H)]; [left; now apply matchesFullName_lowered|].
    unfold valueOf in H.
    destruct (getFormattedValue ds recordId (name column)) as [v|] eqn:Hv.
    + right. exists column. split; [exact Hin|]. now exists v.
    + (* an absent value contains the query only if its lower-case form is
         empty, and then the primary column contains it too *)
      left. apply containsLowered_empty_value in H.
      unfold matchesFullName, searchQuery. rewrite H. apply includes_empty.
Qed.

End LoweredFacts.

(** C2, as the code has it.  The query is the text of the search box with
    the white space at its ends removed, and "contains" compares lower-case
    forms: a record is in the filtered result exactly when it is a record
    of the data set and the lower-case form of its primary column
    ([fullname]) or of one of the declared columns contains the lower-case
    form of that query, an absent value counting as the empty string.  With
    an empty query every record is in the result, and an absent value
    contains no query but the empty one. *)
Theorem filter_matches_lowered_query {collator : Collator} (ds : DataSet)
  (this : Control) :
  let q := trim (searchInput this) in
  (forall recordId,
     In recordId (filteredRecords ds this) <->
     In recordId (sortedRecordIds ds) /\ loweredMatch ds q recordId) /\
  (q = [] -> filteredRecords ds this = sortedRecords ds this) /\
  (forall recordId column,
     getFormattedValue ds recordId column = None ->
     containsLowered (valueOf ds recordId column) q -> q = []).
Proof.
  intros q. split; [|split].
  - intros recordId. unfold filteredRecords.
    now rewrite filter_In, sortedRecords_In, filter_passes_loweredMatch.
  - intros Hq. unfold filteredRecords.
    apply forallb_filter_id. apply forallb_forall. intros recordId _.
    apply orb_true_iff. left. unfold matchesFullName, searchQuery.
    fold q. rewrite Hq, toLowerCase_empty. apply includes_empty.
  - intros recordId column Hv. unfold valueOf. rewrite Hv. cbn [orEmpty].
    intros H. now apply toLowerCase_nonempty, containsLowered_empty_value.
Qed.

Lemma filter_matches_lowered_query_witness :
  In (lit "c1")
     (filteredRecords (collator := codeUnitCollator) Samples.contacts
        (Samples.searching " tara")).
Proof.
  apply (filter_matches_lowered_query (collator := codeUnitCollator)
           Samples.contacts (Samples.searching " tara")).
  split.
  - left. reflexivity.
  - left. exists [], (lit " young"). reflexivity.
Defined.

(** C2 as it is worded, with the query as typed: the text [ tara], with a
    space in front, lets the record of Tara Young through, and no value of
    that record contains the text. *)
Lemma filter_query_as_typed_counterexample :
  let this := Samples.searching " tara" in
  ~ (In (lit "c1") (filteredRecords (collator := codeUnitCollator) Samples.contacts this) <->
     In (lit "c1") (sortedRecordIds Samples.contacts) /\
     specMatch Samples.contacts (searchInput this) (lit "c1")).
Proof.
  cbn zeta. intros [Hif _].
  assert (Hin : In (lit "c1")
                  (filteredRecords (collator := codeUnitCollator) Samples.contacts
                     (Samples.searching " tara"))).
  { vm_compute. left. reflexivity. }
  destruct (Hif Hin) as [_ [H | (column & Hc & H)]].
  - apply containsCI_includes in H. vm_compute in H. discriminate.
  - apply containsCI_includes in H.
    destruct Hc as [<- | [<- | []]]; vm_compute in H; discriminate.
Qed.

(** ** The two branches of the filter *)

Section BranchFacts.
Context {collator : Collator}.
Variable ds : DataSet.
Variable this : Control.

(** When [fullname] is a declared column, the branch on the primary column
    adds a record only if the query is empty and the record has no full
    name. *)
Lemma matchesFullName_absorbed (recordId : RecordId) :
  In (lit "fullname") (map name (columns ds)) ->
  matchesFullName ds this recordId = true ->
  matchesOtherFields ds this recordId = true \/
  (searchQuery this = [] /\ getFormattedValue ds recordId (lit "fullname") = None).
Proof.
  intros Hin H. apply in_map_iff in Hin as (column & Hname & Hin).
  unfold matchesFullName in H.
  destruct (getFormattedValue ds recordId (lit "fullname")) as [v|] eqn:Hv.
  - left. unfold matchesOtherFields. apply existsb_exists.
    exists column. split; [exact Hin|]. now rewrite Hname, Hv.
  - right. split; [|reflexivity]. now apply includes_in_empty.
Qed.

Lemma matchesOtherFields_empty_query (recordId : RecordId) :
  searchQuery this = [] ->
  (exists column, In column (columns ds) /\
                  getFormattedValue ds recordId (name column) <> None) ->
  matchesOtherFields ds this recordId = true.
Proof.
  intros Hq (column & Hin & Hv). unfold matchesOtherFields.
  apply existsb_exists. exists column. split; [exact Hin|].
  destruct (getFormattedValue ds recordId (name column)); [|congruence].
  rewrite Hq. apply includes_empty.
Qed.

End BranchFacts.

(** C7, as the code has it: when [fullname] is one of the declared columns
    and every record either is searched with a query that is not empty or
    has a value in some declared column, the filter with both branches lets
    through the same records, in the same order, as the branch over the
    declared columns alone. *)
Theorem fullname_branch_redundant {collator : Collator} (ds : DataSet)
  (this : Control) :
  In (lit "fullname") (map name (columns ds)) ->
  (forall recordId, In recordId (sortedRecordIds ds) ->
     searchQuery this <> [] \/
     exists column, In column (columns ds) /\
                    getFormattedValue ds recordId (name column) <> None) ->
  filteredRecords ds this = filteredByColumnsOnly ds this.
Proof.
  intros Hfull Hrows. unfold filteredRecords, filteredByColumnsOnly.
  apply filter_ext_in. intros recordId Hin. apply sortedRecords_In in Hin.
  destruct (matchesOtherFields ds this recordId) eqn:Ho; [apply orb_true_r|].
  rewrite orb_false_r.
  destruct (matchesFullName ds this recordId) eqn:Hf; [|reflexivity].
  destruct (matchesFullName_absorbed ds this recordId Hfull Hf) as [H|[Hq Hv]];
    [congruence|].
  destruct (Hrows recordId Hin) as [Hne|Hsome]; [contradiction|].
  rewrite (matchesOtherFields_empty_query ds this recordId Hq Hsome) in Ho.
  discriminate.
Qed.

Lemma fullname_branch_redundant_witness :
  filteredRecords (collator := codeUnitCollator) Samples.contacts (Samples.searching "smith")
  = filteredByColumnsOnly (collator := codeUnitCollator) Samples.contacts
      (Samples.searching "smith").
Proof.
  apply (fullname_branch_redundant (collator := codeUnitCollator)
           Samples.contacts (Samples.searching "smith")).
  - left. reflexivity.
  - intros recordId _. left. vm_compute. discriminate.
Defined.

(** C7 as it is worded, for every data set and query: in a view that does
    not declare [fullname] the query [tara] finds Tara Young through the
    primary column only; and with an empty query a record without values is
    shown through the primary column and not through the declared ones. *)
Lemma fullname_branch_counterexample :
  filteredRecords (collator := codeUnitCollator) Samples.contactsByEmail
    (Samples.searching "tara")
  <> filteredByColumnsOnly (collator := codeUnitCollator) Samples.contactsByEmail
       (Samples.searching "tara") /\
  filteredRecords (collator := codeUnitCollator)
    (Samples.tableOf [Samples.fullnameColumn] [(lit "c5", [])]) initial
  <> filteredByColumnsOnly (collator := codeUnitCollator)
       (Samples.tableOf [Samples.fullnameColumn] [(lit "c5", [])]) initial.
Proof. split; vm_compute; discriminate. Qed.

(** ** Pagination *)

(** C3. With [n] filtered records, pages of 13, and the page [p] that the
    rendering settles on in 1..max(total pages, 1): the page count is the
    ceiling of n/13, the rows shown number min(13, n - (p-1)*13), none when
    n = 0, and they are the run of the filtered and sorted records from
    index (p-1)*13 up to, not including, p*13. *)
Theorem pagination_window {collator : Collator} (ds : DataSet) (this : Control) :
  let n := Z.of_nat (length (filteredRecords ds this)) in
  let r := renderTable ds this in
  let p := currentPage (fst r) in
  let pages := shownTotalPages (snd r) in
  let rows := shownRows (snd r) in
  1 <= p <= Z.max pages 1 ->
  (13 * (pages - 1) < n <= 13 * pages) /\
  Z.of_nat (length rows) = Z.min 13 (n - (p - 1) * 13) /\
  (n = 0 -> rows = []) /\
  rows = firstn 13 (skipn (Z.to_nat ((p - 1) * 13)) (filteredRecords ds this)).
Proof.
  cbn zeta. unfold renderTable. cbn [fst snd currentPage shownTotalPages shownRows].
  intros [Hp _].
  pose proof (startIndex_in_range ds this Hp) as Hs.
  pose proof (ceilDiv_bounds _ (totalRecords_nonneg ds this)) as Hb.
  fold (totalPages ds this) in Hb. unfold totalRecords, recordsPerPage in *.
  assert (Hrows : paginatedRecords ds this =
                  firstn 13 (skipn (Z.to_nat ((clampedPage ds this - 1) * 13))
                               (filteredRecords ds this))).
  { unfold paginatedRecords.
    rewrite (slice_window _ (startIndex ds this) recordsPerPage); [reflexivity| |].
    - apply Hs.
    - unfold recordsPerPage. lia. }
  unfold startIndex, recordsPerPage in Hs.
  split; [exact Hb|]. split; [|split; [|exact Hrows]].
  - rewrite Hrows, length_firstn, length_skipn. lia.
  - intros Hn. rewrite Hrows.
    destruct (filteredRecords ds this); [|discriminate].
    now rewrite skipn_nil, firstn_nil.
Qed.

(** Thirty records and a request for page 5: page 3 with the last four. *)
Lemma pagination_window_witness :
  let r := renderTable (collator := codeUnitCollator) Samples.thirty (Samples.onPage 5) in
  currentPage (fst r) = 3 /\ shownTotalPages (snd r) = 3 /\
  shownRows (snd r) = [lit "["; lit "\"; lit "]"; lit "^"].
Proof.
  cbn zeta. split; [reflexivity|]. split; [reflexivity|].
  destruct (pagination_window (collator := codeUnitCollator) Samples.thirty
              (Samples.onPage 5)) as (_ & _ & _ & H).
  - vm_compute. split; discriminate.
  - rewrite H. reflexivity.
Defined.

Lemma nearestPage_fixed (pages p : Z) :
  0 <= pages -> 1 <= p <= Z.max pages 1 -> orOne (Z.min p pages) = p.
Proof.
  intros Ht Hp. unfold orOne.
  destruct (Z.eqb_spec (Z.min p pages) 0); lia.
Qed.

(** C4. For every data set, query and requested page, a page past the
    last one and page 0 included, the page the rendering settles on lies in
    1..max(total pages, 1), is the nearest page of that range, and the
    rendering is the one of a request for that page.  The requested page is
    the private field [currentPage]: its writers keep it at 1 or above
    ([reachable_page_in_range] below), so it is never negative. *)
Theorem page_clamped_to_nearest {collator : Collator} (ds : DataSet) (this : Control) :
  0 <= currentPage this ->
  let r := renderTable ds this in
  let nearest := nearestPage (shownTotalPages (snd r)) (currentPage this) in
  1 <= currentPage (fst r) <= Z.max (shownTotalPages (snd r)) 1 /\
  currentPage (fst r) = nearest /\
  renderTable ds (setPage this nearest) = r.
Proof.
  intros Hp. cbn zeta.
  change (shownTotalPages (snd (renderTable ds this))) with (totalPages ds this).
  change (currentPage (fst (renderTable ds this))) with (clampedPage ds this).
  pose proof (totalPages_nonneg ds this) as Ht.
  pose proof (clampedPage_nearest ds this Hp) as Hc.
  set (nearest := nearestPage (totalPages ds this) (currentPage this)) in *.
  assert (Hrange : 1 <= nearest <= Z.max (totalPages ds this) 1)
    by (unfold nearest, nearestPage; lia).
  split; [now rewrite Hc|]. split; [exact Hc|].
  assert (Hsame : clampedPage ds (setPage this nearest) = clampedPage ds this).
  { rewrite Hc. unfold clampedPage. cbn [setPage currentPage].
    change (totalPages ds (setPage this nearest)) with (totalPages ds this).
    now apply nearestPage_fixed. }
  unfold renderTable, tableCells, paginatedRecords, startIndex.
  rewrite Hsame. reflexivity.
Qed.

Lemma page_clamped_to_nearest_witness :
  currentPage (fst (renderTable (collator := codeUnitCollator) Samples.thirty
                      (Samples.onPage 0))) = 1 /\
  currentPage (fst (renderTable (collator := codeUnitCollator) Samples.thirty
                      (Samples.onPage 5))) = 3.
Proof.
  split.
  - destruct (page_clamped_to_nearest (collator := codeUnitCollator) Samples.thirty
                (Samples.onPage 0)) as (_ & H & _).
    + vm_compute. discriminate.
    + rewrite H. reflexivity.
  - destruct (page_clamped_to_nearest (collator := codeUnitCollator) Samples.thirty
                (Samples.onPage 5)) as (_ & H & _).
    + vm_compute. discriminate.
    + rewrite H. reflexivity.
Defined.

(** The control itself never asks for a page below 1: after every event the
    page is in range. *)
Lemma reachable_page_in_range {collator : Collator} (w : Control * Z) :
  reachable w -> 1 <= currentPage (fst w).
Proof.
  induction 1 as [|[this shown] ds e Hw IH He]; [cbn; lia|].
  cbn [fst] in IH.
  assert (Hrender : forall c, 1 <= currentPage c ->
            1 <= currentPage (fst (updateView ds c))).
  { intros c Hc. unfold updateView, renderTable. cbn [fst currentPage].
    rewrite clampedPage_nearest by lia. unfold nearestPage. lia. }
  destruct e; cbn [handle].
  - apply Hrender. cbn. lia.
  - unfold sortTable. apply Hrender. unfold sortTableFields.
    now destruct (isSortColumn this columnName).
  - destruct (Z.ltb_spec 1 (currentPage this)); [|exact IH].
    apply Hrender. cbn. lia.
  - destruct (Z.ltb_spec (currentPage this) shown); [|exact IH].
    apply Hrender. cbn. lia.
  - destruct (Z.leb_spec 1 i); cbn [andb]; [|exact IH].
    destruct (i <=? shown); [|exact IH]. apply Hrender. cbn. lia.
  - now apply Hrender.
Qed.

(** ** Sorting the records *)

(** Code unit order is a consistent comparison. *)
Lemma codeUnitCompare_antisym (a b : str) :
  Z.sgn (codeUnitCompare a b) = - Z.sgn (codeUnitCompare b a).
Proof.
  revert b; induction a as [|x a IH]; intros [|y b]; cbn [codeUnitCompare];
    try reflexivity.
  destruct (N.ltb_spec (code x) (code y)), (N.ltb_spec (code y) (code x));
    try reflexivity; try lia. apply IH.
Qed.

Lemma codeUnitCompare_trans (a b c : str) :
  codeUnitCompare a b <= 0 -> codeUnitCompare b c <= 0 -> codeUnitCompare a c <= 0.
Proof.
  revert b c; induction a as [|x a IH]; intros [|y b] [|z c];
    cbn [codeUnitCompare]; try lia.
  destruct (N.ltb_spec (code x) (code y)), (N.ltb_spec (code y) (code x)),
           (N.ltb_spec (code y) (code z)), (N.ltb_spec (code z) (code y)),
           (N.ltb_spec (code x) (code z)), (N.ltb_spec (code z) (code x));
    try lia. apply IH.
Qed.

Lemma codeUnitCollator_consistent : ConsistentCollator codeUnitCollator.
Proof.
  split; [exact codeUnitCompare_antisym | exact codeUnitCompare_trans].
Qed.

Section CompareFacts.
Context {collator : Collator} {consistent : ConsistentCollator collator}.
Variable ds : DataSet.
Variable this : Control.
Variable C : str.

Lemma compareRecords_antisym (a b : RecordId) :
  Z.sgn (compareRecords ds this C a b) = - Z.sgn (compareRecords ds this C b a).
Proof.
  unfold compareRecords. destruct (isAscending this); apply compare_antisym.
Qed.

Lemma compareRecords_trans (a b c : RecordId) :
  compareRecords ds this C a b <= 0 -> compareRecords ds this C b c <= 0 ->
  compareRecords ds this C a c <= 0.
Proof.
  unfold compareRecords. destruct (isAscending this); intros H1 H2.
  - eapply compare_trans; eassumption.
  - eapply compare_trans; eassumption.
Qed.

(** Two records whose keys both compare equal to [k] do not come one after
    the other, in either direction. *)
Lemma compareRecords_equal_keys (k : str) (a b : RecordId) :
  localeCompare (valueOf ds a C) k = 0 ->
  localeCompare (valueOf ds b C) k = 0 ->
  compareRecords ds this C a b <= 0.
Proof.
  intros Ha Hb. fold (valueOf ds a C) (valueOf ds b C).
  assert (Hka : localeCompare k (valueOf ds a C) = 0)
    by (pose proof (compare_antisym k (valueOf ds a C)); lia).
  assert (Hkb : localeCompare k (valueOf ds b C) = 0)
    by (pose proof (compare_antisym k (valueOf ds b C)); lia).
  unfold compareRecords. fold (valueOf ds a C) (valueOf ds b C).
  destruct (isAscending this); apply compare_trans with k; lia.
Qed.

End CompareFacts.




(** ** Highlighting a query without pattern syntax

    Where the query has no syntax character the pattern is the query in a
    group, the call returns, and a value that does not contain the query
    comes back as it is: the defect of C1 and C6 is confined to the queries
    with pattern syntax. *)

Lemma parseLoop_plain_char (c : ascii) (rest : str) (next : nat)
  (top : RegExp.Frame) (stack : list RegExp.Frame) :
  RegExp.isSyntaxCharacter c = false ->
  RegExp.parseLoop (c :: rest) next top stack =
  RegExp.parseLoop rest next (RegExp.pushAtom top (RegExp.Char c)) stack.
Proof.
  intros H. destruct c as [[] [] [] [] [] [] [] []];
    solve [discriminate H | reflexivity].
Qed.

Lemma parseLoop_plain (q rest : str) (next : nat) (top : RegExp.Frame)
  (stack : list RegExp.Frame) :
  isPlain q = true ->
  RegExp.parseLoop (q ++ rest) next top stack =
  RegExp.parseLoop rest next
    (RegExp.mkFrame (RegExp.alts top) (rev (map RegExp.Char q) ++ RegExp.terms top)
       (match q with [] => RegExp.last top | _ :: _ => RegExp.Atom end)
       (RegExp.index top))
    stack.
Proof.
  revert top; induction q as [|c q IH]; intros top Hq.
  - now destruct top.
  - cbn [isPlain forallb] in Hq. apply andb_true_iff in Hq as [Hc Hq].
    apply negb_true_iff in Hc.
    cbn [app]. rewrite parseLoop_plain_char by exact Hc.
    rewrite IH by exact Hq. cbn [RegExp.pushAtom RegExp.alts RegExp.terms
      RegExp.index RegExp.last map rev].
    rewrite <- app_assoc. cbn [app]. now destruct q.
Qed.

Lemma seqOf_literal (q : str) (acc : RegExp.Node) :
  fold_left (fun acc t => RegExp.Seq t acc) (rev (map RegExp.Char q)) acc =
  fold_right (fun c r => RegExp.Seq (RegExp.Char c) r) acc q.
Proof.
  rewrite <- fold_left_rev_right, rev_involutive.
  induction q as [|c q IH]; [reflexivity|]. cbn. now rewrite IH.
Qed.

(** The pattern built from a plain query. *)
Lemma parse_plain_query (q : str) :
  isPlain q = true ->
  RegExp.parse (lit "(" ++ q ++ lit ")") =
  RegExp.Parsed (RegExp.Seq (RegExp.Group 1 (literal q)) RegExp.Empty).
Proof.
  intros Hq. unfold RegExp.parse. change (lit "(" ++ q ++ lit ")") with ("("%char :: (q ++ lit ")")).
  assert (Hopen : RegExp.parseLoop ("("%char :: q ++ lit ")") 1 (RegExp.newFrame 0) [] =
                  RegExp.parseLoop (q ++ lit ")") 2 (RegExp.newFrame 1) [RegExp.newFrame 0]).
  { destruct q as [|c q]; [reflexivity|].
    cbn [isPlain forallb] in Hq. apply andb_true_iff in Hq as [Hc _].
    destruct c as [[] [] [] [] [] [] [] []]; solve [discriminate Hc | reflexivity]. }
  rewrite Hopen, parseLoop_plain by exact Hq.
  cbn. unfold RegExp.altOf. cbn. rewrite app_nil_r.
  unfold RegExp.seqOf. now rewrite seqOf_literal.
Qed.

Lemma startsUnderI_prefix (q s : str) :
  startsUnderI s q = true <-> prefixUnderI q s.
Proof.
  unfold prefixUnderI, sameUnderI.
  revert s; induction q as [|c q IH]; intros s; cbn [startsUnderI].
  - split; [intros _; now exists [], s|reflexivity].
  - destruct s as [|d s].
    + split; [discriminate|]. intros (mid & post & Hs & Hm).
      symmetry in Hs. apply app_eq_nil in Hs as [-> _]. discriminate.
    + rewrite andb_true_iff, N.eqb_eq, IH. split.
      * intros [Hc (mid & post & -> & Hm)]. exists (d :: mid), post.
        split; [reflexivity|]. cbn [map]. now rewrite Hm, Hc.
      * intros (mid & post & Hs & Hm). destruct mid as [|e mid]; [discriminate|].
        cbn [map app] in Hs, Hm. injection Hs as <- ->. injection Hm as Hc Hm.
        split; [now symmetry | now exists mid, post].
Qed.

Lemma includesUnderI_contains (s q : str) :
  includesUnderI s q = true <-> containsUnderI s q.
Proof.
  unfold containsUnderI.
  induction s as [|c s IH]; cbn [includesUnderI].
  - rewrite orb_false_r, startsUnderI_prefix. split.
    + intros (mid & post & Hs & Hm). now exists [], mid, post.
    + intros (pre & mid & post & Hs & Hm).
      destruct pre; [now exists mid, post | discriminate].
  - rewrite orb_true_iff, startsUnderI_prefix, IH. split.
    + intros [(mid & post & Hs & Hm) | (pre & mid & post & Hs & Hm)].
      * now exists [], mid, post.
      * exists (c :: pre), mid, post. now rewrite Hs.
    + intros (pre & mid & post & Hs & Hm). destruct pre as [|c' pre]; cbn [app] in Hs.
      * left. now exists mid, post.
      * right. injection Hs as _ Hs. now exists pre, mid, post.
Qed.

(** The characters of the query match the start of the input up to the
    folding of the [i] flag. *)
Lemma run_literal (q s : str) (cap : option str) :
  RegExp.run (literal q) (s, cap) =
  if startsUnderI s q then [(skipn (length q) s, cap)] else [].
Proof.
  revert s; induction q as [|c q IH]; intros s; [reflexivity|].
  cbn [literal fold_right RegExp.run fst snd startsUnderI].
  destruct s as [|d s]; [reflexivity|].
  cbn [length skipn].
  destruct (RegExp.Canonicalize c =? RegExp.Canonicalize d)%N; [|reflexivity].
  cbn [flat_map andb]. rewrite app_nil_r. apply IH.
Qed.

Lemma matchAt_plain_query (q s : str) :
  RegExp.matchAt (RegExp.Seq (RegExp.Group 1 (literal q)) RegExp.Empty) s =
  if startsUnderI s q
  then Some ((length s - length (skipn (length q) s))%nat,
             Some (RegExp.consumed s (skipn (length q) s)))
  else None.
Proof.
  unfold RegExp.matchAt. cbn [RegExp.run]. rewrite run_literal.
  now destruct (startsUnderI s q).
Qed.

(** A plain query always yields a result. *)
Lemma highlightText_plain_returns (value q : str) :
  isPlain q = true ->
  exists marked, highlightText value q = Normal marked.
Proof.
  intros Hq. unfold highlightText. destruct (truthy q); cbn [negb].
  - rewrite parse_plain_query by exact Hq. eauto.
  - eauto.
Qed.

(** X17. A value that contains nothing the [i] flag takes for the plain
    query comes back unchanged: no marker is added and no character is
    altered.  The comparison is the one of the regular expression
    ([Canonicalize] unit by unit), not the one of [toLowerCase]. *)
Lemma highlightText_plain_absent (value q : str) :
  isPlain q = true -> ~ containsUnderI value q ->
  highlightText value q = Normal value.
Proof.
  intros Hq Hno. unfold highlightText. destruct (truthy q); cbn [negb]; [|reflexivity].
  rewrite parse_plain_query by exact Hq. f_equal.
  rewrite <- includesUnderI_contains in Hno. apply not_true_is_false in Hno.
  unfold RegExp.replace. induction value as [|c value IH].
  - cbn [RegExp.replaceLoop]. rewrite matchAt_plain_query.
    cbn [includesUnderI] in Hno. apply orb_false_iff in Hno as [Hno _].
    now rewrite Hno.
  - cbn [RegExp.replaceLoop]. rewrite matchAt_plain_query.
    cbn [includesUnderI] in Hno. apply orb_false_iff in Hno as [Hno Hrest].
    rewrite Hno. f_equal. apply IH. exact Hrest.
Qed.

(** ** The control on the sample data *)

Example search_finds_one_contact :
  let r := renderTable (collator := codeUnitCollator) Samples.contacts
             (Samples.searching "tara") in
  shownRows (snd r) = [lit "c1"] /\ shownTotalPages (snd r) = 1 /\
  currentPage (fst r) = 1 /\
  shownCells (snd r) =
    Normal [[marked "Tara" ++ lit " Young"; lit "ty@contoso.com"]].
Proof. repeat split; vm_compute; reflexivity. Qed.

Example second_click_reverses_three_contacts :
  let first := fst (sortTable (collator := codeUnitCollator) Samples.threeContacts
                      initial (lit "fullname")) in
  let second := fst (sortTable (collator := codeUnitCollator) Samples.threeContacts
                       first (lit "fullname")) in
  sortedRecords (collator := codeUnitCollator) Samples.threeContacts first
    = [lit "c2"; lit "c3"; lit "c1"] /\
  sortedRecords (collator := codeUnitCollator) Samples.threeContacts second
    = [lit "c1"; lit "c3"; lit "c2"].
Proof. split; vm_compute; reflexivity. Qed.

Example no_match_shows_page_one :
  let r := renderTable (collator := codeUnitCollator) Samples.contacts
             (Samples.searching "zz") in
  shownRows (snd r) = [] /\ shownTotalPages (snd r) = 0 /\ currentPage (fst r) = 1.
Proof. repeat split; vm_compute; reflexivity. Qed.

Example pattern_errors :
  highlightText (lit "abc") (lit "*") = ThrowSyntaxError /\
  highlightText (lit "abc") (lit "a)") = ThrowSyntaxError /\
  highlightText (lit "abc") (lit "\") = ThrowSyntaxError /\
  highlightText (lit "abc") (lit "[") = Unmodelled /\
  highlightText (lit "a.c") (lit "\.") = Normal (lit "a" ++ marked "." ++ lit "c") /\
  highlightText (lit "abab") (lit "a)(b") = Normal (marked "a" ++ marked "a").
Proof. repeat split; vm_compute; reflexivity. Qed.

(** ** More on the pages *)

Lemma firstn_add_skipn {A : Type} (a b : nat) (l : list A) :
  firstn (a + b) l = firstn a l ++ firstn b (skipn a l).
Proof.
  revert l; induction a as [|a IH]; intros l; [reflexivity|].
  destruct l as [|x l]; cbn [Nat.add firstn skipn app].
  - now rewrite firstn_nil.
  - now rewrite IH.
Qed.

(** Windows of [w] elements laid end to end give back the list. *)
Lemma windows_concat {A : Type} (w m : nat) (l : list A) :
  concat (map (fun k => firstn w (skipn (k * w) l)) (seq 0 m)) = firstn (m * w) l.
Proof.
  induction m as [|m IH]; [reflexivity|].
  rewrite seq_S, map_app, concat_app, IH. cbn [map concat Nat.add].
  rewrite app_nil_r.
  replace (S m * w)%nat with (m * w + w)%nat by lia.
  now rewrite firstn_add_skipn.
Qed.

Lemma relativeIndex_width (len start width : Z) :
  0 <= len -> 0 <= width ->
  relativeIndex len (start + width) - relativeIndex len start <= width.
Proof.
  intros Hl Hw. unfold relativeIndex.
  destruct (Z.ltb_spec (start + width) 0), (Z.ltb_spec start 0); lia.
Qed.

(** A slice is a run of consecutive elements of the array. *)
Lemma slice_contiguous {A : Type} (l : list A) (start stop : Z) :
  exists pre post, l = pre ++ slice l start stop ++ post.
Proof.
  unfold slice.
  set (k := Z.to_nat (relativeIndex (Z.of_nat (length l)) start)).
  set (n := Z.to_nat (_ - _)).
  exists (firstn k l), (skipn n (skipn k l)).
  now rewrite (firstn_skipn n), (firstn_skipn k).
Qed.

Lemma Permutation_filter_same {A : Type} (f : A -> bool) (l l' : list A) :
  Permutation l l' -> Permutation (filter f l) (filter f l').
Proof.
  induction 1 as [|x l l' _ IH|x y l|l l' l'' _ IH1 _ IH2]; cbn [filter].
  - constructor.
  - destruct (f x); [now constructor | exact IH].
  - destruct (f x), (f y); try reflexivity. apply perm_swap.
  - now transitivity (filter f l').
Qed.

Lemma pageNumbers_In (pages p : Z) : In p (pageNumbers pages) <-> 1 <= p <= pages.
Proof.
  unfold pageNumbers. rewrite in_map_iff. split.
  - intros (k & <- & Hk). apply in_seq in Hk. lia.
  - intros Hp. exists (Z.to_nat p). split; [lia|]. apply in_seq. lia.
Qed.

Section MorePages.
Context {collator : Collator}.
Variable ds : DataSet.
Variable this : Control.

Lemma paginatedRecords_of_page (p : Z) :
  1 <= p <= totalPages ds this ->
  paginatedRecords ds (setPage this p) =
  firstn 13 (skipn (Z.to_nat (p - 1) * 13) (filteredRecords ds this)).
Proof.
  intros Hp.
  assert (Hc : clampedPage ds (setPage this p) = p).
  { unfold clampedPage. cbn [setPage currentPage].
    change (totalPages ds (setPage this p)) with (totalPages ds this).
    apply nearestPage_fixed; lia. }
  unfold paginatedRecords, startIndex. rewrite Hc.
  change (filteredRecords ds (setPage this p)) with (filteredRecords ds this).
  rewrite (slice_window _ ((p - 1) * recordsPerPage) recordsPerPage);
    unfold recordsPerPage; try lia.
  do 2 f_equal. lia.
Qed.

End MorePages.

(** X1. The pages 1..totalPages, one after the other, show every filtered
    record once, in the order of the filtered list: no record is lost or
    shown twice by the pagination. *)
Theorem pages_partition_filtered {collator : Collator} (ds : DataSet) (this : Control) :
  concat (map (fun p => shownRows (snd (renderTable ds (setPage this p))))
              (pageNumbers (shownTotalPages (snd (renderTable ds this)))))
  = filteredRecords ds this.
Proof.
  cbn [renderTable snd shownRows shownTotalPages].
  pose proof (ceilDiv_bounds _ (totalRecords_nonneg ds this)) as Hb.
  fold (totalPages ds this) in Hb.
  pose proof (totalPages_nonneg ds this) as Ht.
  transitivity (concat (map (fun k => firstn 13 (skipn (k * 13) (filteredRecords ds this)))
                            (seq 0 (Z.to_nat (totalPages ds this))))).
  - f_equal. unfold pageNumbers. rewrite map_map, <- seq_shift, map_map.
    apply map_ext_in. intros k Hk. apply in_seq in Hk.
    rewrite paginatedRecords_of_page by lia. do 3 f_equal. lia.
  - rewrite windows_concat. apply firstn_all2.
    unfold totalRecords, recordsPerPage in Hb. lia.
Qed.


(** X3. Sorting changes neither which records pass the filter nor the page
    count: under any sort column and direction the filtered records are a
    rearrangement of the ones filtered in the order of the data set. *)
Theorem sorting_keeps_matches {collator : Collator} (ds : DataSet) (this : Control) :
  Permutation (filteredRecords ds this) (filteredRecords ds (unsorted this)) /\
  totalPages ds this = totalPages ds (unsorted this).
Proof.
  assert (HP : Permutation (filteredRecords ds this) (filteredRecords ds (unsorted this))).
  { unfold filteredRecords.
    change (fun recordId => matchesFullName ds (unsorted this) recordId
                            || matchesOtherFields ds (unsorted this) recordId)
      with (fun recordId => matchesFullName ds this recordId
                            || matchesOtherFields ds this recordId).
    apply Permutation_filter_same.
    rewrite (sortedRecords_permutation ds this).
    apply Permutation_sym, sortedRecords_permutation. }
  split; [exact HP|].
  unfold totalPages, totalRecords. now rewrite (Permutation_length HP).
Qed.

Lemma includes_trans (v q2 q1 : str) :
  includes q2 q1 = true -> includes v q2 = true -> includes v q1 = true.
Proof.
  rewrite !includes_substring.
  intros (a & b & ->) (pre & post & ->).
  exists (pre ++ a), (b ++ post). now rewrite <- !app_assoc.
Qed.

(** X4. Typing more narrows the result: when the query of one state contains
    the query of another, every record that passes the filter for the first
    passes it for the second, whatever the sort settings and pages. *)
Theorem longer_query_narrows {collator : Collator} (ds : DataSet)
  (short long : Control) :
  includes (searchQuery long) (searchQuery short) = true ->
  forall recordId,
    In recordId (filteredRecords ds long) -> In recordId (filteredRecords ds short).
Proof.
  intros Hq recordId. unfold filteredRecords.
  rewrite !filter_In, !sortedRecords_In, !orb_true_iff.
  intros [Hin H]. split; [exact Hin|].
  destruct H as [H|H]; [left|right].
  - unfold matchesFullName in *. now apply includes_trans with (searchQuery long).
  - unfold matchesOtherFields in *. apply existsb_exists in H as (column & Hc & H).
    apply existsb_exists. exists column. split; [exact Hc|].
    destruct (getFormattedValue ds recordId (name column)); [|discriminate].
    now apply includes_trans with (searchQuery long).
Qed.

Lemma longer_query_narrows_witness :
  In (lit "c2")
     (filteredRecords (collator := codeUnitCollator) Samples.contacts
        (Samples.searching "ali")).
Proof.
  apply (longer_query_narrows (collator := codeUnitCollator) Samples.contacts
           (Samples.searching "ali")
           (mkControl (lit "Alice S") (Some (lit "fullname")) false 1)).
  - vm_compute. reflexivity.
  - vm_compute. left. reflexivity.
Defined.

(** ** More on the events *)

Lemma clampedPage_idempotent (pages p : Z) :
  0 <= pages -> orOne (Z.min (orOne (Z.min p pages)) pages) = orOne (Z.min p pages).
Proof.
  intros Hp. unfold orOne.
  destruct (Z.eqb_spec (Z.min p pages) 0) as [E|E].
  - destruct (Z.eqb_spec (Z.min 1 pages) 0); lia.
  - destruct (Z.eqb_spec (Z.min (Z.min p pages) pages) 0); lia.
Qed.

(** X5. A second rendering of the same data changes nothing: the control is
    left as the first rendering left it and the same table is shown,
    whatever page was asked for at first. *)
Theorem updateView_idempotent {collator : Collator} (ds : DataSet) (this : Control) :
  updateView ds (fst (updateView ds this)) = updateView ds this.
Proof.
  unfold updateView.
  set (this' := fst (renderTable ds this)).
  assert (Hsame : clampedPage ds this' = clampedPage ds this).
  { unfold clampedPage at 1. subst this'. cbn [renderTable fst currentPage].
    change (totalPages ds _) with (totalPages ds this) at 1.
    apply clampedPage_idempotent, totalPages_nonneg. }
  unfold renderTable at 1. unfold tableCells, paginatedRecords, startIndex.
  rewrite Hsame. reflexivity.
Qed.

(** X6. Typing in the search box always leads to page 1, with the text typed
    as the search text, whatever the page and the data were. *)
Theorem typing_resets_page {collator : Collator} (ds : DataSet) (w : Control * Z)
  (text : str) :
  let this' := fst (handle ds w (Typed text)) in
  currentPage this' = 1 /\ searchInput this' = text.
Proof.
  destruct w as [this shown]. cbn zeta. cbn [handle fst updateView renderTable
    currentPage searchInput setPage setSearch].
  split; [|reflexivity].
  pose proof (totalPages_nonneg ds (setPage (setSearch this text) 1)) as Ht.
  unfold clampedPage, orOne. cbn [setPage currentPage].
  destruct (Z.eqb_spec (Z.min 1 (totalPages ds (setPage (setSearch this text) 1))) 0); lia.
Qed.

Lemma handle_rendered_page {collator : Collator} (ds : DataSet) (this : Control) :
  1 <= currentPage this ->
  1 <= currentPage (fst (updateView ds this))
    <= Z.max (shownTotalPages (snd (updateView ds this))) 1.
Proof.
  intros Hp. unfold updateView, renderTable. cbn [fst snd currentPage shownTotalPages].
  pose proof (totalPages_nonneg ds this).
  rewrite clampedPage_nearest by lia. unfold nearestPage. lia.
Qed.



(** X8. With the data unchanged, Previous undoes Next and Next undoes
    Previous: from a rendered page that has a page after it, Next then
    Previous comes back to the same state, and from one that has a page
    before it, Previous then Next does. *)
Theorem previous_next_round_trip {collator : Collator} (ds : DataSet) (this : Control) :
  let w := (this, totalPages ds this) in
  (1 <= currentPage this < totalPages ds this ->
   handle ds (handle ds w NextClicked) PreviousClicked = w) /\
  (1 < currentPage this <= totalPages ds this ->
   handle ds (handle ds w PreviousClicked) NextClicked = w).
Proof.
  cbn zeta.
  assert (Hmove : forall p, 1 <= p <= totalPages ds this ->
            fst (updateView ds (setPage this p)) = setPage this p).
  { intros p Hp.
    assert (Hc : clampedPage ds (setPage this p) = p).
    { unfold clampedPage. cbn [setPage currentPage].
      change (totalPages ds (setPage this p)) with (totalPages ds this).
      apply nearestPage_fixed; lia. }
    unfold updateView, renderTable. cbn [fst]. rewrite Hc. reflexivity. }
  assert (Hpages : forall p, shownTotalPages (snd (updateView ds (setPage this p)))
                             = totalPages ds this) by reflexivity.
  assert (Hback : setPage this (currentPage this) = this) by now destruct this.
  split; intros Hp.
  - cbn [handle]. destruct (Z.ltb_spec (currentPage this) (totalPages ds this)); [|lia].
    cbn [fst snd]. rewrite Hpages, Hmove by lia. cbn [handle setPage currentPage].
    destruct (Z.ltb_spec 1 (currentPage this + 1)); [|lia].
    cbn [fst snd].
    change (setPage (setPage this (currentPage this + 1)) (currentPage this + 1 - 1))
      with (setPage this (currentPage this + 1 - 1)).
    rewrite Hpages, Hmove by lia.
    replace (currentPage this + 1 - 1) with (currentPage this) by lia.
    now rewrite Hback.
  - cbn [handle]. destruct (Z.ltb_spec 1 (currentPage this)); [|lia].
    cbn [fst snd]. rewrite Hpages, Hmove by lia. cbn [handle setPage currentPage].
    destruct (Z.ltb_spec (currentPage this - 1) (totalPages ds this)); [|lia].
    cbn [fst snd].
    change (setPage (setPage this (currentPage this - 1)) (currentPage this - 1 + 1))
      with (setPage this (currentPage this - 1 + 1)).
    rewrite Hpages, Hmove by lia.
    replace (currentPage this - 1 + 1) with (currentPage this) by lia.
    now rewrite Hback.
Qed.

Lemma previous_next_round_trip_witness :
  let w := (Samples.onPage 2, 3) in
  handle (collator := codeUnitCollator) Samples.thirty
    (handle (collator := codeUnitCollator) Samples.thirty w NextClicked) PreviousClicked = w /\
  handle (collator := codeUnitCollator) Samples.thirty
    (handle (collator := codeUnitCollator) Samples.thirty w PreviousClicked) NextClicked = w.
Proof.
  cbn zeta.
  destruct (previous_next_round_trip (collator := codeUnitCollator) Samples.thirty
              (Samples.onPage 2)) as [Hnext Hprev].
  split.
  - apply Hnext. vm_compute. split; [discriminate | reflexivity].
  - apply Hprev. vm_compute. split; [reflexivity | discriminate].
Defined.

(** ** More on the cells and the order *)

Lemma forEach_Normal {A B : Type} (f : A -> Completion B) (g : A -> B) (xs : list A) :
  (forall x, In x xs -> f x = Normal (g x)) -> forEach f xs = Normal (map g xs).
Proof.
  induction xs as [|x xs IH]; intros H; [reflexivity|].
  cbn [forEach map]. rewrite (H x) by now left. cbn [bind].
  rewrite IH by (intros y Hy; apply H; now right). reflexivity.
Qed.

(** X9. With an empty search text, or one of white space only, every record
    of the data set passes the filter and every cell of the page shows the
    formatted value as it is, an absent value as the empty string: no
    regular expression is built and no markup is added. *)
Theorem blank_query_shows_values {collator : Collator} (ds : DataSet) (this : Control) :
  trim (searchInput this) = [] ->
  filteredRecords ds this = sortedRecords ds this /\
  shownCells (snd (renderTable ds this)) =
  Normal (map (fun recordId =>
                 map (fun column => valueOf ds recordId (name column)) (columns ds))
              (shownRows (snd (renderTable ds this)))).
Proof.
  intros Hq.
  assert (Hs : searchQuery this = []) by (unfold searchQuery; now rewrite Hq).
  split.
  - unfold filteredRecords. apply forallb_filter_id, forallb_forall.
    intros recordId _. unfold matchesFullName. rewrite Hs.
    now rewrite includes_empty.
  - cbn [renderTable snd shownCells shownRows]. unfold tableCells.
    apply forEach_Normal. intros recordId _.
    apply forEach_Normal. intros column _. now rewrite Hs.
Qed.

Lemma blank_query_shows_values_witness :
  shownCells (snd (renderTable (collator := codeUnitCollator) Samples.threeContacts
                     (Samples.searching "   ")))
  = Normal [ [lit "Tara Young"; lit "ty@contoso.com"];
             [lit "Alice Smith"; lit "as@contoso.com"];
             [lit "Bob Stone"; []] ].
Proof.
  destruct (blank_query_shows_values (collator := codeUnitCollator) Samples.threeContacts
              (Samples.searching "   ")) as [_ H].
  - reflexivity.
  - rewrite H. reflexivity.
Defined.

Lemma sort_of_sorted {A : Type} (cmp : A -> A -> Z) (l : list A) :
  StronglySorted (fun a b => cmp a b <= 0) l -> sort cmp l = l.
Proof.
  induction 1 as [|x l Hl IH Hx]; [reflexivity|].
  cbn [sort]. rewrite IH. destruct l as [|y l]; [reflexivity|].
  cbn [insert]. inversion_clear Hx as [|? ? Hxy _].
  destruct (Z.leb_spec (cmp x y) 0); [reflexivity | lia].
Qed.

(** X10. Sorting leaves alone a data set that is in order already: when no
    record comes after a later one under the comparison of the sort column
    and direction - in particular when all the keys compare equal, as for a
    column no record has a value under - the sorted order is the order of
    the data set. *)
Theorem sort_keeps_ordered_data {collator : Collator} (ds : DataSet) (this : Control)
  (C : str) :
  currentSortColumn this = Some C ->
  StronglySorted (fun a b => compareRecords ds this C a b <= 0) (sortedRecordIds ds) ->
  sortedRecords ds this = sortedRecordIds ds.
Proof.
  intros Hc Hs. unfold sortedRecords. rewrite Hc.
  destruct (truthy C); [now apply sort_of_sorted | reflexivity].
Qed.

(** The contacts sorted downwards by a column none of them has. *)
Lemma sort_keeps_ordered_data_witness :
  sortedRecords (collator := codeUnitCollator) Samples.contacts
    (Samples.sortedBy "telephone1" false)
  = [lit "c1"; lit "c2"; lit "c3"; lit "c4"].
Proof.
  apply (sort_keeps_ordered_data (collator := codeUnitCollator) Samples.contacts
           (Samples.sortedBy "telephone1" false) (lit "telephone1")).
  - reflexivity.
  - repeat constructor; vm_compute; discriminate.
Defined.

(** ** More on the highlighting *)

Lemma parenOrPlain_not_question (c : ascii) :
  RegExp.isChar c "()" || negb (RegExp.isSyntaxCharacter c) = true ->
  RegExp.isChar c "?" = false.
Proof.
  destruct c as [[] [] [] [] [] [] [] []]; solve [discriminate | reflexivity].
Qed.

Lemma parenOrPlain_cases (c : ascii) :
  RegExp.isChar c "()" || negb (RegExp.isSyntaxCharacter c) = true ->
  c = "("%char \/ c = ")"%char \/
  (RegExp.isChar c "(" = false /\ RegExp.isChar c ")" = false /\
   RegExp.isSyntaxCharacter c = false).
Proof.
  destruct c as [[] [] [] [] [] [] [] []]; intros H;
    solve [discriminate H | now left | now (right; left) | now (right; right)].
Qed.

(** On parentheses and plain characters the parser fails exactly when the
    parentheses do not pair up. *)
Lemma parseLoop_parens (s : str) :
  isParenOrPlain s = true ->
  forall next top stack,
    (closes s (length stack) = Some O ->
     exists r, RegExp.parseLoop s next top stack = RegExp.Parsed r) /\
    (closes s (length stack) <> Some O ->
     RegExp.parseLoop s next top stack = RegExp.SyntaxError).
Proof.
  induction s as [|c s IH]; intros Hs next top stack.
  - cbn [closes RegExp.parseLoop]. destruct stack as [|f stack]; cbn [length].
    + split; [eauto | congruence].
    + split; [discriminate | reflexivity].
  - cbn [isParenOrPlain forallb] in Hs. apply andb_true_iff in Hs as [Hc Hs].
    fold (isParenOrPlain s) in Hs.
    destruct (parenOrPlain_cases c Hc) as [-> | [-> | (H1 & H2 & H3)]].
    + assert (Hopen : RegExp.parseLoop ("("%char :: s) next top stack =
                      RegExp.parseLoop s (S next) (RegExp.newFrame next) (top :: stack)).
      { destruct s as [|q s]; [reflexivity|].
        cbn [isParenOrPlain forallb] in Hs. apply andb_true_iff in Hs as [Hq _].
        apply parenOrPlain_not_question in Hq.
        cbn [RegExp.parseLoop]. change (RegExp.isChar "(" "(") with true.
        cbv iota. now rewrite Hq. }
      rewrite Hopen. change (closes ("("%char :: s) (length stack))
        with (closes s (length (top :: stack))).
      apply IH; exact Hs.
    + destruct stack as [|parent stack].
      * split; [discriminate | reflexivity].
      * change (RegExp.parseLoop (")"%char :: s) next top (parent :: stack))
          with (RegExp.parseLoop s next
                  (RegExp.pushAtom parent
                     (RegExp.Group (RegExp.index top) (RegExp.altOf top))) stack).
        change (closes (")"%char :: s) (length (parent :: stack)))
          with (closes s (length stack)).
        apply IH; exact Hs.
    + rewrite parseLoop_plain_char by exact H3.
      cbn [closes]. rewrite H1, H2. apply IH; exact Hs.
Qed.

(** The pattern the code builds from such a query. *)
Lemma parse_parenthesised_query (q : str) :
  isParenOrPlain q = true ->
  (closes (lit "(" ++ q ++ lit ")") 0 = Some O ->
   exists r, RegExp.parse (lit "(" ++ q ++ lit ")") = RegExp.Parsed r) /\
  (closes (lit "(" ++ q ++ lit ")") 0 <> Some O ->
   RegExp.parse (lit "(" ++ q ++ lit ")") = RegExp.SyntaxError).
Proof.
  intros Hq.
  assert (Hp : isParenOrPlain (lit "(" ++ q ++ lit ")") = true).
  { unfold isParenOrPlain in *. rewrite !forallb_app, Hq. reflexivity. }
  exact (parseLoop_parens _ Hp 1%nat (RegExp.newFrame 0) []).
Qed.

(** X11. For a query whose only pattern syntax is parentheses the call
    returns exactly when the parentheses of the pattern, the query in the
    group the code puts around it, pair up; otherwise it throws the
    SyntaxError of the RegExp constructor, whatever the value. *)
Theorem highlightText_parentheses (value q : str) :
  isParenOrPlain q = true ->
  (closes (lit "(" ++ q ++ lit ")") 0 = Some O ->
   exists out, highlightText value q = Normal out) /\
  (closes (lit "(" ++ q ++ lit ")") 0 <> Some O ->
   highlightText value q = ThrowSyntaxError).
Proof.
  intros Hq. destruct (parse_parenthesised_query q Hq) as [Hok Hbad].
  unfold highlightText. split; intros H.
  - destruct (truthy q); cbn [negb]; [|eauto].
    destruct (Hok H) as [r ->]. eauto.
  - destruct q as [|c q]; [elim H; reflexivity|].
    cbn [truthy negb]. now rewrite (Hbad H).
Qed.

Lemma highlightText_parentheses_witness :
  (exists out, highlightText (lit "Smith (Al)") (lit "(al)") = Normal out) /\
  highlightText (lit "Smith (Al)") (lit "(al") = ThrowSyntaxError.
Proof.
  split.
  - apply (highlightText_parentheses (lit "Smith (Al)") (lit "(al)")); reflexivity.
  - apply (highlightText_parentheses (lit "Smith (Al)") (lit "(al")).
    + reflexivity.
    + vm_compute. discriminate.
Defined.

(** X12. A query that begins with [*] or [+] makes the call throw, whatever
    follows and whatever the value: the quantifier has nothing to repeat. *)
Theorem highlightText_leading_quantifier (value rest : str) (c : ascii) :
  RegExp.isChar c "*+" = true ->
  highlightText value (c :: rest) = ThrowSyntaxError.
Proof.
  unfold RegExp.isChar, lit. cbn [String.list_ascii_of_string existsb].
  rewrite orb_false_r, orb_true_iff, !Ascii.eqb_eq.
  intros [-> | ->]; reflexivity.
Qed.

Lemma highlightText_leading_quantifier_witness :
  highlightText (lit "C++ developer") (lit "+dev") = ThrowSyntaxError.
Proof.
  apply (highlightText_leading_quantifier (lit "C++ developer") (lit "dev") "+"%char).
  reflexivity.
Defined.

Lemma replaceLoop_skip (r : RegExp.Node) (t : RegExp.Template) (k : nat) (s : str) :
  (k <= length s)%nat ->
  RegExp.replaceLoop r t k s = RegExp.replaceLoop r t 0 (skipn k s).
Proof.
  revert s; induction k as [|k IH]; intros s Hk; [reflexivity|].
  destruct s as [|c s]; [cbn in Hk; lia|].
  cbn [RegExp.replaceLoop skipn]. apply IH. cbn in Hk. lia.
Qed.

(** X13. For a query without pattern syntax the call returns the value with
    the occurrences of the query marked, found from left to right and
    without overlap, each as it is written in the value.  An occurrence is
    a run of the value that the [i] flag does not tell from the query (the
    same code units up to [Canonicalize]): a position where none starts is
    copied, and where one starts it is wrapped and the scan goes on behind
    it. *)
Theorem highlightText_plain_marks (q : str) :
  isPlain q = true -> q <> [] ->
  exists H : str -> str,
    (forall value, highlightText value q = Normal (H value)) /\
    H [] = [] /\
    (forall c s, ~ prefixUnderI q (c :: s) -> H (c :: s) = c :: H s) /\
    (forall mid post, sameUnderI mid q -> H (mid ++ post) = wrap mid ++ H post).
Proof.
  intros Hq Hne.
  set (regex := RegExp.Seq (RegExp.Group 1 (literal q)) RegExp.Empty).
  exists (RegExp.replace regex highlightSpan).
  assert (Hmiss : forall s, ~ prefixUnderI q s -> RegExp.matchAt regex s = None).
  { intros s Hs. unfold regex. rewrite matchAt_plain_query.
    destruct (startsUnderI s q) eqn:E; [|reflexivity].
    apply startsUnderI_prefix in E. contradiction. }
  split; [|split; [|split]].
  - intros value. unfold highlightText.
    destruct q as [|c q]; [contradiction|]. cbn [truthy negb].
    now rewrite parse_plain_query by exact Hq.
  - unfold RegExp.replace. cbn [RegExp.replaceLoop]. rewrite Hmiss; [reflexivity|].
    intros (mid & post & Hs & Hm). symmetry in Hs. apply app_eq_nil in Hs as [-> _].
    destruct q; [contradiction | discriminate].
  - intros c s Hs. unfold RegExp.replace. cbn [RegExp.replaceLoop].
    now rewrite Hmiss.
  - intros mid post Hm.
    assert (Hlen : length mid = length q).
    { apply (f_equal (@length N)) in Hm. now rewrite !length_map in Hm. }
    destruct mid as [|c mid];
      [destruct q; [contradiction | discriminate]|].
    unfold RegExp.replace. cbn [app RegExp.replaceLoop].
    unfold regex at 1. rewrite matchAt_plain_query.
    assert (Hstart : startsUnderI (c :: mid ++ post) q = true).
    { apply startsUnderI_prefix. now exists (c :: mid), post. }
    rewrite Hstart, <- Hlen.
    change (c :: mid ++ post) with ((c :: mid) ++ post).
    rewrite skipn_app, skipn_all, Nat.sub_diag. cbn [skipn app].
    unfold RegExp.consumed.
    assert (Hn : (length (c :: mid ++ post) - length post)%nat = S (length mid))
      by (cbn [length]; rewrite length_app; lia).
    rewrite Hn. cbn [firstn].
    rewrite firstn_app, firstn_all, Nat.sub_diag. cbn [firstn]. rewrite app_nil_r.
    unfold RegExp.substitution.
    change (RegExp.hasGroup1 regex) with true. cbv iota. cbn [orEmpty].
    unfold wrap. rewrite <- !app_assoc. do 3 f_equal.
    rewrite replaceLoop_skip by (rewrite length_app; lia).
    now rewrite skipn_app, skipn_all, Nat.sub_diag.
Qed.

Lemma highlightText_plain_marks_witness :
  exists H : str -> str,
    highlightText (lit "Anna Hanna") (lit "an") = Normal (H (lit "Anna Hanna")) /\
    H (lit "Anna Hanna") =
    wrap (lit "An") ++ lit "na H" ++ wrap (lit "an") ++ lit "na".
Proof.
  destruct (highlightText_plain_marks (lit "an")) as (H & Hout & Hnil & Hcopy & Hmark);
    [reflexivity | discriminate |].
  assert (Hno : forall s, startsUnderI s (lit "an") = false ->
                          ~ prefixUnderI (lit "an") s).
  { intros s E Hs. apply startsUnderI_prefix in Hs. congruence. }
  exists H. split; [apply Hout|].
  pose proof (Hmark (lit "An") (lit "na Hanna") eq_refl) as E1.
  pose proof (Hcopy "n"%char (lit "a Hanna") (Hno ("n"%char :: lit "a Hanna") eq_refl)) as E2.
  pose proof (Hcopy "a"%char (lit " Hanna") (Hno ("a"%char :: lit " Hanna") eq_refl)) as E3.
  pose proof (Hcopy " "%char (lit "Hanna") (Hno (" "%char :: lit "Hanna") eq_refl)) as E4.
  pose proof (Hcopy "H"%char (lit "anna") (Hno ("H"%char :: lit "anna") eq_refl)) as E5.
  pose proof (Hmark (lit "an") (lit "na") eq_refl) as E6.
  pose proof (Hcopy "n"%char (lit "a") (Hno ("n"%char :: lit "a") eq_refl)) as E7.
  pose proof (Hcopy "a"%char [] (Hno ["a"%char] eq_refl)) as E8.
  vm_compute in E1, E2, E3, E4, E5, E6, E7, E8 |- *.
  rewrite E1, E2, E3, E4, E5, E6, E7, E8, Hnil. reflexivity.
Defined.

Lemma highlightText_plain_absent_witness :
  highlightText (lit "Bob Stone") (lit "tara") = Normal (lit "Bob Stone").
Proof.
  apply (highlightText_plain_absent (lit "Bob Stone") (lit "tara")).
  - reflexivity.
  - rewrite <- includesUnderI_contains. vm_compute. discriminate.
Defined.

(** ** The pagination bar *)

Lemma pageButtonsFrom_built (count : nat) (i current : Z) (buttons : list PageButton) :
  pageButtonsFrom count i current = DomOk buttons <->
  (count = O /\ buttons = []) \/
  (count = 1%nat /\ i = current /\ buttons = [mkPageButton i true]).
Proof.
  destruct count as [|count]; cbn [pageButtonsFrom].
  - split; [intros [= <-]; now left | intros [[_ ->] | [H _]]; [reflexivity | discriminate]].
  - destruct (Z.eqb_spec i current) as [->|Hne].
    + change (classListAdd (lit "active")) with (DomOk tt). cbn [domBind].
      destruct count as [|count]; cbn [pageButtonsFrom domBind].
      * split; [intros [= <-]; now right | intros [[H _] | (_ & _ & ->)]; [discriminate | reflexivity]].
      * destruct (Z.eqb_spec (current + 1) current) as [E|_]; [lia|].
        change (classListAdd (lit "")) with (@DomThrows unit DomSyntaxError).
        cbn [domBind]. split; [discriminate | intros [[H _] | (H & _)]; discriminate].
    + change (classListAdd (lit "")) with (@DomThrows unit DomSyntaxError).
      cbn [domBind]. split; [discriminate | intros [[H _] | (_ & H & _)]; [discriminate | contradiction]].
Qed.

(** X14. The pagination bar is built only when there is at most one page.
    Each page button that is not the current one is given the empty class
    name, which [classList.add] refuses: from a requested page that is not
    negative, [renderPaginationControls] completes exactly when at most 13
    records pass the filter.  The bar then has Previous disabled and no page
    button but an active button 1; Next is disabled unless no record
    passes. *)
Theorem pagination_bar_needs_single_page {collator : Collator} (ds : DataSet)
  (this : Control) :
  0 <= currentPage this ->
  let built := renderPaginationControls (fst (renderTable ds this)) (totalPages ds this) in
  ((exists bar, built = DomOk bar) <-> (length (filteredRecords ds this) <= 13)%nat) /\
  (forall bar, built = DomOk bar ->
     prevDisabled bar = true /\
     (nextDisabled bar = false <-> filteredRecords ds this = []) /\
     (forall button, In button (pageButtons bar) -> button = mkPageButton 1 true)).
Proof.
  intros Hp. cbn zeta. unfold renderPaginationControls.
  change (classListAdd (lit "pagination")) with (DomOk tt). cbn [domBind].
  cbn [renderTable fst currentPage].
  pose proof (totalPages_nonneg ds this) as Ht.
  pose proof (clampedPage_nearest ds this Hp) as Hc.
  pose proof (ceilDiv_bounds _ (totalRecords_nonneg ds this)) as Hb.
  fold (totalPages ds this) in Hb. unfold totalRecords, recordsPerPage in Hb.
  unfold nearestPage in Hc.
  destruct (pageButtonsFrom (Z.to_nat (totalPages ds this)) 1 (clampedPage ds this))
    as [buttons|e] eqn:E; cbn [domBind].
  - apply pageButtonsFrom_built in E.
    assert (Hone : totalPages ds this <= 1) by (destruct E as [[E _] | (E & _)]; lia).
    split.
    + split; [intros _; lia | eauto].
    + intros bar [= <-]. cbn [prevDisabled nextDisabled pageButtons].
      assert (Hcp : clampedPage ds this = 1) by lia. rewrite Hcp.
      split; [reflexivity|]. split.
      * rewrite Z.eqb_neq. split.
        -- intros Hn. destruct (filteredRecords ds this); [reflexivity | cbn [length] in Hb; lia].
        -- intros Hn. rewrite Hn in Hb. cbn [length] in Hb. lia.
      * intros button Hin. destruct E as [[_ ->] | (_ & _ & ->)]; [destruct Hin|].
        destruct Hin as [<- | []]. reflexivity.
  - split; [|discriminate]. split; [intros [bar H]; discriminate|].
    intros Hn. exfalso.
    assert (Hone : totalPages ds this <= 1) by lia.
    assert (Hsome : exists buttons,
              pageButtonsFrom (Z.to_nat (totalPages ds this)) 1 (clampedPage ds this)
              = DomOk buttons).
    { destruct (Z.eq_dec (totalPages ds this) 0) as [Hz|Hz].
      - exists []. apply pageButtonsFrom_built. left. split; [lia | reflexivity].
      - exists [mkPageButton 1 true]. apply pageButtonsFrom_built. right.
        repeat split; lia. }
    destruct Hsome as [buttons H]. congruence.
Qed.

Lemma pagination_bar_needs_single_page_witness :
  (exists bar,
     renderPaginationControls
       (fst (renderTable (collator := codeUnitCollator) Samples.contacts initial))
       (totalPages (collator := codeUnitCollator) Samples.contacts initial) = DomOk bar) /\
  ~ (exists bar,
       renderPaginationControls
         (fst (renderTable (collator := codeUnitCollator) Samples.thirty initial))
         (totalPages (collator := codeUnitCollator) Samples.thirty initial) = DomOk bar).
Proof.
  split.
  - apply (pagination_bar_needs_single_page (collator := codeUnitCollator)
             Samples.contacts initial).
    + vm_compute. discriminate.
    + vm_compute. lia.
  - intros H.
    apply (pagination_bar_needs_single_page (collator := codeUnitCollator)
             Samples.thirty initial) in H.
    + vm_compute in H. lia.
    + vm_compute. discriminate.
Defined.

(** ** The control in the page *)

Lemma built_bar_single_page (this : Control) (pages : Z) (bar : PaginationBar) :
  renderPaginationControls this pages = DomOk bar ->
  barTotalPages bar = pages /\ (0 <= pages -> pages <= 1) /\
  (forall button, In button (pageButtons bar) -> buttonPage button = 1).
Proof.
  unfold renderPaginationControls.
  change (classListAdd (lit "pagination")) with (DomOk tt). cbn [domBind].
  destruct (pageButtonsFrom (Z.to_nat pages) 1 (currentPage this)) as [buttons|e] eqn:E;
    cbn [domBind]; [|discriminate].
  intros [= <-]. cbn [barTotalPages pageButtons].
  apply pageButtonsFrom_built in E.
  split; [reflexivity|]. split.
  - destruct E as [[E _] | (E & _)]; lia.
  - intros button Hin. destruct E as [[_ ->] | (_ & _ & ->)]; [destruct Hin|].
    destruct Hin as [<- | []]. reflexivity.
Qed.

Lemma rendersTo_without_search_box {collator : Collator} (ds : DataSet)
  (this : Control) (children : list Child) :
  rendersTo ds this children -> ~ In SearchBox children.
Proof.
  intros [_|_]; [intros []|]. unfold tableAndBar.
  intros [H|H]; [discriminate|].
  destruct (renderPaginationControls _ _); [destruct H as [H|[]]; discriminate | destruct H].
Qed.

Lemma rendersTo_bar {collator : Collator} (ds : DataSet) (this : Control)
  (children : list Child) (bar : PaginationBar) :
  rendersTo ds this children -> In (PaginationElement bar) children ->
  renderPaginationControls (fst (renderTable ds this)) (totalPages ds this) = DomOk bar.
Proof.
  intros [_|_]; [intros []|]. unfold tableAndBar.
  intros [H|H]; [discriminate|].
  destruct (renderPaginationControls _ _) as [bar'|e]; [|destruct H].
  destruct H as [[= ->]|[]]. reflexivity.
Qed.

Lemma render_keeps_first_page {collator : Collator} (ds : DataSet) (this : Control)
  (children : list Child) :
  currentPage this = 1 -> rendersTo ds this children ->
  onFirstPage (mkWorld (fst (updateView ds this)) children).
Proof.
  intros Hp Hr. pose proof (totalPages_nonneg ds this) as Ht. split.
  - cbn [control updateView renderTable fst currentPage].
    rewrite clampedPage_nearest by lia. unfold nearestPage. lia.
  - cbn [container]. intros bar Hin.
    pose proof (rendersTo_bar ds this children bar Hr Hin) as Hb.
    apply built_bar_single_page in Hb as (Hpages & Hle & Hbuttons).
    split; [rewrite Hpages; auto | exact Hbuttons].
Qed.

Lemma liveStep_keeps_first_page {collator : Collator} (w w' : World) :
  onFirstPage w -> liveStep w w' -> onFirstPage w'.
Proof.
  intros [Hp Hbars] Hstep.
  destruct Hstep as [w ds text children _ Hr
                    | w ds headers columnName children _ _ Hr
                    | w ds bar children _ Hlt _
                    | w ds bar children Hbar Hlt _
                    | w ds bar button children Hbar Hin Hr
                    | w ds children Hr
                    | w].
  - now apply render_keeps_first_page.
  - unfold sortTable. apply render_keeps_first_page; [|exact Hr].
    unfold sortTableFields. now destruct (isSortColumn (control w) columnName).
  - lia.
  - destruct (Hbars bar Hbar) as [Hle _]. lia.
  - destruct (Hbars bar Hbar) as [_ Hb]. rewrite (Hb button Hin) in *.
    now apply render_keeps_first_page.
  - now apply render_keeps_first_page.
  - split; [exact Hp | intros bar []].
Qed.

(** X15. In the page the control never leaves page 1.  A pagination bar
    exists only when there is at most one page, so Next finds no later
    page, Previous no earlier one and the only page button is button 1;
    typing, a header click and a new data set keep or restore page 1. *)
Theorem live_control_stays_on_first_page {collator : Collator} (w : World) :
  liveReachable w -> currentPage (control w) = 1.
Proof.
  intros Hw. enough (onFirstPage w) as [H _] by exact H.
  induction Hw as [|w w' _ IH Hstep].
  - split; [reflexivity|]. intros bar [H|[]]. discriminate.
  - now apply liveStep_keeps_first_page with w.
Qed.

Lemma live_control_stays_on_first_page_witness :
  currentPage
    (control (mkWorld (fst (sortTable (collator := codeUnitCollator) Samples.thirty
                              (fst (updateView (collator := codeUnitCollator)
                                      Samples.thirty initial))
                              (lit "fullname")))
                      (tableAndBar (collator := codeUnitCollator) Samples.thirty
                         (sortTableFields
                            (fst (updateView (collator := codeUnitCollator)
                                    Samples.thirty initial))
                            (lit "fullname"))))) = 1.
Proof.
  apply (live_control_stays_on_first_page (collator := codeUnitCollator)).
  eapply live_after.
  - eapply live_after; [apply live_init|].
    apply (live_updated (collator := codeUnitCollator) liveStart Samples.thirty
             (tableAndBar (collator := codeUnitCollator) Samples.thirty initial)).
    apply render_shown. vm_compute. exact I.
  - apply (live_header (collator := codeUnitCollator)
             (mkWorld (fst (updateView (collator := codeUnitCollator) Samples.thirty initial))
                      (tableAndBar (collator := codeUnitCollator) Samples.thirty initial))
             Samples.thirty [lit "fullname"] (lit "fullname")).
    + left. reflexivity.
    + left. reflexivity.
    + apply render_shown. vm_compute. exact I.
Defined.

(** X16. The search box does not outlive the first rendering.  [init] puts
    it into the container and every rendering empties the container without
    putting it back: after any step it is not in the container, and from
    then on no step changes the search text. *)
Theorem search_box_lost_on_rendering {collator : Collator} (w w' : World) :
  liveStep w w' ->
  ~ In SearchBox (container w') /\
  (~ In SearchBox (container w) ->
   searchInput (control w') = searchInput (control w)).
Proof.
  intros Hstep.
  destruct Hstep as [w ds text children Hbox Hr
                    | w ds headers columnName children _ _ Hr
                    | w ds bar children _ _ Hr
                    | w ds bar children _ _ Hr
                    | w ds bar button children _ _ Hr
                    | w ds children Hr
                    | w]; cbn [container control].
  - split; [now apply rendersTo_without_search_box in Hr | contradiction].
  - split; [now apply rendersTo_without_search_box in Hr|]. intros _.
    unfold sortTable, updateView, renderTable, sortTableFields. cbn [fst searchInput].
    now destruct (isSortColumn (control w) columnName).
  - split; [now apply rendersTo_without_search_box in Hr | reflexivity].
  - split; [now apply rendersTo_without_search_box in Hr | reflexivity].
  - split; [now apply rendersTo_without_search_box in Hr | reflexivity].
  - split; [now apply rendersTo_without_search_box in Hr | reflexivity].
  - split; [intros [] | reflexivity].
Qed.

Lemma search_box_lost_on_rendering_witness :
  ~ In SearchBox (tableAndBar (collator := codeUnitCollator) Samples.contacts initial).
Proof.
  apply (search_box_lost_on_rendering (collator := codeUnitCollator) liveStart
           (mkWorld (fst (updateView (collator := codeUnitCollator) Samples.contacts initial))
                    (tableAndBar (collator := codeUnitCollator) Samples.contacts initial))).
  apply (live_updated (collator := codeUnitCollator) liveStart Samples.contacts).
  apply render_shown. vm_compute. exact I.
Defined.

(** X18. A query with an unpaired parenthesis leaves the table unbuilt: when
    the page has a row and the view a column, the first cell makes
    [renderTable] throw after the container was emptied, so the container
    stays empty, while the page number has been stored already. *)
Theorem unpaired_parenthesis_blanks_table {collator : Collator} (ds : DataSet)
  (this : Control) :
  isParenOrPlain (searchQuery this) = true ->
  closes (lit "(" ++ searchQuery this ++ lit ")") 0 <> Some O ->
  shownRows (snd (renderTable ds this)) <> [] -> columns ds <> [] ->
  shownCells (snd (renderTable ds this)) = ThrowSyntaxError /\
  (forall children, rendersTo ds this children -> children = []) /\
  currentPage (fst (renderTable ds this)) = clampedPage ds this.
Proof.
  intros Hq Hopen Hrows Hcols. cbn [renderTable fst snd shownRows shownCells currentPage] in *.
  assert (Hcells : tableCells ds this = ThrowSyntaxError).
  { unfold tableCells.
    destruct (paginatedRecords ds this) as [|recordId rows]; [contradiction|].
    destruct (columns ds) as [|column cols]; [contradiction|].
    cbn [forEach]. unfold highlightText.
    destruct (parse_parenthesised_query (searchQuery this) Hq) as [_ Hbad].
    rewrite (Hbad Hopen).
    destruct (searchQuery this); [elim Hopen; reflexivity | reflexivity]. }
  split; [exact Hcells|]. split; [|reflexivity].
  intros children [_|Hr]; [reflexivity|]. rewrite Hcells in Hr. destruct Hr.
Qed.

Lemma unpaired_parenthesis_blanks_table_witness :
  shownCells
    (snd (renderTable (collator := codeUnitCollator)
            (Samples.tableOf [Samples.fullnameColumn]
               [(lit "d1", [(lit "fullname", lit "Smith (Al)")])])
            (Samples.searching "(al")))
  = ThrowSyntaxError.
Proof.
  apply (unpaired_parenthesis_blanks_table (collator := codeUnitCollator)
           (Samples.tableOf [Samples.fullnameColumn]
              [(lit "d1", [(lit "fullname", lit "Smith (Al)")])])
           (Samples.searching "(al")).
  - reflexivity.
  - vm_compute. discriminate.
  - vm_compute. discriminate.
  - discriminate.
Defined.
